(** * groupcache: the LRU cache ([lru/lru.go]) and the call coalescer
    ([singleflight.go]), with their specifications.

    The Go code is embedded shallowly.  A method with a pointer receiver
    becomes a computation in a small state-and-failure monad: the state
    holds the struct behind the receiver together with the part of the Go
    heap the method can reach, and failure stands for a run-time panic. *)

From stdpp Require Import gmap strings list fin_maps.
From Stdlib Require Import ZArith.

(** Heap addresses: of the elements of a [container/list] list
    ([*list.Element]) in package lru, of call records ([*call]) in package
    singleflight. *)
Abbreviation ptr := positive.

(** ** Package lru *)

Module lru.

Section Cache.

(** [Key] is [interface{}] restricted to comparable values; [V] stands for
    the values an [interface{}] can hold, its inhabitant for [nil]; [F] for
    the function values that can be stored in [OnEvicted]. *)
Context {K : Type} {K_eq : EqDecision K} {K_countable : Countable K}.
Context {V : Type} {V_nil : Inhabited V}.
Context {F : Type}.

Definition nil_value : V := inhabitant.

(** [type entry struct { key Key; value interface{} }] *)
Record entry := Entry { key : K; value : V }.

(** [type Cache struct].  [ll] is the list as the sequence of its element
    addresses, front first; [None] is the nil pointer, resp. the nil map. *)
Record Cache := mkCache {
  MaxEntries : Z;
  OnEvicted : option F;
  ll : option (list ptr);
  cache : option (gmap K ptr);
}.

Definition set_ll (l : option (list ptr)) (c : Cache) : Cache :=
  mkCache (MaxEntries c) (OnEvicted c) l (cache c).
Definition set_cache (m : option (gmap K ptr)) (c : Cache) : Cache :=
  mkCache (MaxEntries c) (OnEvicted c) (ll c) m.

(** A call [f(k, v)] of the eviction callback.  The callback is foreign
    code: what the cache does to it is the sequence of calls it makes, and
    it is taken not to call back into the cache. *)
Inductive event := Evicted (f : F) (k : K) (v : V).

(** The receiver [c], the entries the list elements point to (an element
    and the [*entry] in its [Value] are one heap cell here: [Value] is
    assigned once, at [PushFront]) and the callback calls made so far,
    oldest first. *)
Record state := State {
  self : Cache;
  heap : gmap ptr entry;
  trace : list event;
}.

(** *** The monad *)

Definition M (A : Type) : Type := state → option (A * state).

#[local] Instance M_ret : MRet M := λ A a s, Some (a, s).
#[local] Instance M_bind : MBind M := λ A B f m s,
  match m s with
  | Some (a, s') => f a s'
  | None => None
  end.

Definition panic {A} : M A := λ _, None.

Definition this : M Cache := λ s, Some (self s, s).
Definition assign (f : Cache → Cache) : M unit := λ s,
  Some ((), State (f (self s)) (heap s) (trace s)).

(** The entry behind [e.Value]; a nil or dangling [e] panics. *)
Definition deref (e : ptr) : M entry := λ s,
  match heap s !! e with
  | Some kv => Some (kv, s)
  | None => None
  end.
Definition store (e : ptr) (kv : entry) : M unit := λ s,
  Some ((), State (self s) (<[e := kv]> (heap s)) (trace s)).
(** Allocation returns an address that is not in use. *)
Definition new (kv : entry) : M ptr := λ s,
  let e := fresh (dom (heap s)) in
  Some (e, State (self s) (<[e := kv]> (heap s)) (trace s)).
Definition call (f : F) (k : K) (v : V) : M unit := λ s,
  Some ((), State (self s) (heap s) (trace s ++ [Evicted f k v])).

(** *** container/list, as far as the cache uses it

    The methods are those of Go's standard library, on the list [c.ll].
    [Len], [Back] and [PushFront] read through the receiver: a nil [c.ll]
    makes them panic. *)

Definition list_New : list ptr := [].

Definition the_list : M (list ptr) :=
  c ← this;
  match ll c with
  | Some l => mret l
  | None => panic
  end.

Definition list_Len : M Z :=
  l ← the_list; mret (Z.of_nat (length l)).

Definition list_Back : M (option ptr) :=
  l ← the_list; mret (last l).

Definition list_PushFront (kv : entry) : M ptr :=
  l ← the_list;
  e ← new kv;
  assign (set_ll (Some (e :: l)));;
  mret e.

(** [MoveToFront] and [Remove] first compare the list the element is in
    with the receiver, and return when they differ: when [e] is not an
    element of the list, and so when the receiver is nil. *)
Definition list_MoveToFront (e : ptr) : M unit :=
  c ← this;
  match ll c with
  | Some l =>
      if decide (e ∈ l)
      then assign (set_ll (Some (e :: filter (λ x, x ≠ e) l)))
      else mret ()
  | None => mret ()
  end.

Definition list_Remove (e : ptr) : M unit :=
  c ← this;
  match ll c with
  | Some l => assign (set_ll (Some (filter (λ x, x ≠ e) l)))
  | None => mret ()
  end.

(** *** The map [c.cache]

    Reading a nil map finds nothing, [delete] on it does nothing, an
    assignment to it panics. *)

Definition map_lookup (k : K) : M (option ptr) :=
  c ← this; mret (cache c ≫= (.!! k)).

Definition map_insert (k : K) (e : ptr) : M unit :=
  c ← this;
  match cache c with
  | Some m => assign (set_cache (Some (<[k := e]> m)))
  | None => panic
  end.

Definition map_delete (k : K) : M unit :=
  c ← this; assign (set_cache (delete k <$> cache c)).

(** *** The methods of [*Cache] *)

(** [func New(maxEntries int) *Cache]; [OnEvicted] is a public field, set
    by the caller after construction: [f] is its value. *)
Definition New (maxEntries : Z) (f : option F) : state :=
  State (mkCache maxEntries f (Some list_New) (Some ∅)) ∅ [].

(** [func (c *Cache) removeElement(e *list.Element)] *)
Definition removeElement (e : ptr) : M unit :=
  list_Remove e;;
  kv ← deref e;
  map_delete (key kv);;
  c ← this;
  match OnEvicted c with
  | Some f => call f (key kv) (value kv)
  | None => mret ()
  end.

(** [func (c *Cache) RemoveOldest()] *)
Definition RemoveOldest : M unit :=
  c ← this;
  match cache c with
  | None => mret ()
  | Some _ =>
      ele ← list_Back;
      match ele with
      | Some e => removeElement e
      | None => mret ()
      end
  end.

(** [func (c *Cache) Add(key Key, value interface{})] *)
Definition Add (k : K) (v : V) : M unit :=
  c ← this;
  (if cache c is None
   then assign (set_cache (Some ∅));; assign (set_ll (Some list_New))
   else mret ());;
  hit ← map_lookup k;
  match hit with
  | Some ee =>
      list_MoveToFront ee;;
      kv ← deref ee;
      store ee (Entry (key kv) v)
  | None =>
      ele ← list_PushFront (Entry k v);
      map_insert k ele;;
      c ← this;
      n ← list_Len;
      if decide (MaxEntries c ≠ 0 ∧ n > MaxEntries c)%Z then RemoveOldest
      else mret ()
  end.

(** [func (c *Cache) Get(key Key) (value interface{}, ok bool)] *)
Definition Get (k : K) : M (V * bool) :=
  c ← this;
  match cache c with
  | None => mret (nil_value, false)
  | Some _ =>
      hit ← map_lookup k;
      match hit with
      | Some ele =>
          list_MoveToFront ele;;
          kv ← deref ele;
          mret (value kv, true)
      | None => mret (nil_value, false)
      end
  end.

(** [func (c *Cache) Remove(key Key)] *)
Definition Remove (k : K) : M unit :=
  c ← this;
  match cache c with
  | None => mret ()
  | Some _ =>
      hit ← map_lookup k;
      match hit with
      | Some ele => removeElement ele
      | None => mret ()
      end
  end.

(** [func (c *Cache) Len() int] *)
Definition Len : M Z :=
  c ← this;
  match cache c with
  | None => mret 0%Z
  | Some _ => list_Len
  end.

(** The body of the loop of [Clear], for the map entry [ke]. *)
Definition Clear_body (ke : K * ptr) : M unit :=
  kv ← deref ke.2;
  c ← this;
  match OnEvicted c with
  | Some f => call f (key kv) (value kv)
  | None => panic
  end.

(** [func (c *Cache) Clear()].  Go leaves the order in which [range]
    visits a map open: [visit] is the order of one run, a listing of the
    map ([ranges] below). *)
Definition Clear (visit : list (K * ptr)) : M unit :=
  c ← this;
  (if OnEvicted c is Some _ then mapM Clear_body visit;; mret ()
   else mret ());;
  assign (set_ll None);;
  assign (set_cache None).

Definition ranges (visit : list (K * ptr)) (s : state) : Prop :=
  visit ≡ₚ from_option map_to_list [] (cache (self s)).

(** *** What a cache holds *)

(** The entries in recency order, most recently used first. *)
Definition entries (s : state) : list entry :=
  match cache (self s), ll (self s) with
  | Some _, Some l => omap (λ e, heap s !! e) l
  | _, _ => []
  end.

(** The key is in the lookup mapping. *)
Definition present (k : K) (s : state) : Prop :=
  is_Some (cache (self s) ≫= (.!! k)).

(** The map sends [k] to an element that holds the entry [(k, v)]. *)
Definition holds (k : K) (v : V) (s : state) : Prop :=
  ∃ e, cache (self s) ≫= (.!! k) = Some e ∧
       heap s !! e = Some (Entry k v).

(** The configuration fields are those of [s]. *)
Definition same_config (s s' : state) : Prop :=
  MaxEntries (self s') = MaxEntries (self s) ∧
  OnEvicted (self s') = OnEvicted (self s).

(** The calls [OnEvicted] receives when [kv] is purged. *)
Definition fired (f : option F) (kv : entry) : list event :=
  match f with
  | Some g => [Evicted g (key kv) (value kv)]
  | None => []
  end.

(** The representation invariant: the list has no element twice, every
    key of the map leads to an element of the list that holds an entry
    with this key, and every element of the list is the one the map has
    for its key.  Every cache a program can hold has it ([reachable_inv]
    below); the properties are stated of the caches that have it. *)
Definition wf (s : state) : Prop :=
  match cache (self s) with
  | None => True
  | Some m =>
      ∃ l, ll (self s) = Some l ∧ NoDup l ∧
        (∀ k e, m !! k = Some e →
           e ∈ l ∧ ∃ v, heap s !! e = Some (Entry k v)) ∧
        (∀ e, e ∈ l → ∃ kv, heap s !! e = Some kv ∧ m !! key kv = Some e)
  end.

(** *** Histories of a cache *)

(** The public operations, as values. *)
Inductive op :=
| OpAdd (k : K) (v : V)
| OpGet (k : K)
| OpRemove (k : K)
| OpRemoveOldest
| OpLen
| OpClear (visit : list (K * ptr)).

Definition exec (o : op) : M unit :=
  match o with
  | OpAdd k v => Add k v
  | OpGet k => Get k;; mret ()
  | OpRemove k => Remove k
  | OpRemoveOldest => RemoveOldest
  | OpLen => Len;; mret ()
  | OpClear visit => Clear visit
  end.

(** A history of calls, one after the other; [None] when a call panics. *)
Fixpoint execs (os : list op) (s : state) : option state :=
  match os with
  | [] => Some s
  | o :: os =>
      match exec o s with
      | Some (_, s') => execs os s'
      | None => None
      end
  end.

(** The one condition on a call: the order in which [Clear] is taken to
    visit the map is an order of that map. *)
Definition allowed (o : op) (s : state) : Prop :=
  match o with
  | OpClear visit => ranges visit s
  | _ => True
  end.

(** The caches a program can hold whose [MaxEntries] is [n]: it made the
    cache with [New] or as a struct literal that leaves the private fields
    nil, and from then on called the methods and assigned [OnEvicted]. *)
Inductive reachable (n : Z) : state → Prop :=
| reach_New f : reachable n (New n f)
| reach_literal f : reachable n (State (mkCache n f None None) ∅ [])
| reach_exec s o s' :
    reachable n s → allowed o s → exec o s = Some ((), s') → reachable n s'
| reach_OnEvicted s f :
    reachable n s →
    reachable n (State (mkCache (MaxEntries (self s)) f (ll (self s))
                                (cache (self s))) (heap s) (trace s)).

(** The state between the insertion of a new key and the capacity test. *)
Definition pushed (n : Z) (f : option F) (l : list ptr) (m : gmap K ptr)
    (h : gmap ptr entry) (t : list event) (k : K) (v : V) : state :=
  let e := fresh (dom h) in
  State (mkCache n f (Some (e :: l)) (Some (<[k := e]> m)))
        (<[e := Entry k v]> h) t.

(** *** The cache as a list of entries

    What the methods do, told of the entries in recency order alone, with
    no list elements, map or heap: [exec_refines] below shows that the
    cache does just this. *)

(** The entry of [k], if it has one. *)
Definition entry_of (k : K) (es : list entry) : option entry :=
  head (filter (λ kv, key kv = k) es).

(** [kv] goes to the front, in place of the entry of its key. *)
Definition touch (kv : entry) (es : list entry) : list entry :=
  kv :: filter (λ x, key x ≠ key kv) es.

(** The entries after the operation, and the entries that left the cache
    through [removeElement] or [Clear]. *)
Definition model (n : Z) (o : op) (es : list entry)
    : list entry * list entry :=
  match o with
  | OpAdd k v =>
      if decide (k ∈ key <$> es) then (touch (Entry k v) es, [])
      else if decide (n ≠ 0 ∧ Z.of_nat (S (length es)) > n)%Z
      then (removelast (Entry k v :: es),
            option_list (last (Entry k v :: es)))
      else (Entry k v :: es, [])
  | OpGet k =>
      (match entry_of k es with Some kv => touch kv es | None => es end, [])
  | OpRemove k => (filter (λ x, key x ≠ k) es, option_list (entry_of k es))
  | OpRemoveOldest => (removelast es, option_list (last es))
  | OpLen => (es, [])
  | OpClear _ => ([], es)
  end.

(** What [Get] returns. *)
Definition answer (k : K) (es : list entry) : V * bool :=
  match entry_of k es with
  | Some kv => (value kv, true)
  | None => (nil_value, false)
  end.

(** The key a call of the callback was made with. *)
Definition ev_key (e : event) : K := let 'Evicted _ k _ := e in k.

(** The key that an operation brings into the cache. *)
Definition added (o : op) (es : list entry) : list K :=
  match o with
  | OpAdd k _ => if decide (k ∈ key <$> es) then [] else [k]
  | _ => []
  end.

(** The operations that purge nothing on their own account. *)
Definition keeps (o : op) : Prop :=
  match o with
  | OpAdd _ _ | OpGet _ | OpLen => True
  | _ => False
  end.

(** ** Proofs *)

(** Facts about lists the proofs below rest on. *)
Section lists.
Context {A B : Type} `{EqDecision A}.
Implicit Types (l : list A) (x : A).

Lemma filter_ne_absent l x : x ∉ l → filter (λ y, y ≠ x) l = l.
Proof.
  induction l as [|a l IH]; [done|]. intros Hx.
  apply not_elem_of_cons in Hx as [Hne Hx].
  rewrite filter_cons_True by congruence. by rewrite IH.
Qed.

Lemma filter_ne_back l x :
  NoDup (l ++ [x]) → filter (λ y, y ≠ x) (l ++ [x]) = l.
Proof.
  intros [_ [Hx _]]%NoDup_app. rewrite filter_app, filter_ne_absent.
  - rewrite filter_cons_False by naive_solver. by rewrite filter_nil, app_nil_r.
  - intros Hin. apply (Hx x Hin). by left.
Qed.

Lemma length_filter_ne l x :
  NoDup l → x ∈ l → S (length (filter (λ y, y ≠ x) l)) = length l.
Proof.
  intros Hnd Hx. apply list_elem_of_split in Hx as (l1 & l2 & ->).
  apply NoDup_app in Hnd as (_ & H1 & [H2 _]%NoDup_cons).
  rewrite filter_app, filter_cons_False by naive_solver.
  rewrite !filter_ne_absent; [|done|].
  - rewrite !length_app. simpl. lia.
  - intros Hin. apply (H1 x Hin). by left.
Qed.

Lemma omap_ext_in (f g : A → option B) l :
  (∀ x, x ∈ l → f x = g x) → omap f l = omap g l.
Proof.
  induction l as [|a l IH]; [done|]. intros Hfg. csimpl.
  rewrite (Hfg a) by left. rewrite IH; [done|].
  intros x Hx. apply Hfg. by right.
Qed.

Lemma omap_total (f : A → option B) l :
  (∀ x, x ∈ l → is_Some (f x)) → length (omap f l) = length l.
Proof.
  induction l as [|a l IH]; [done|]. intros Hf. csimpl.
  destruct (Hf a) as [b ->]; [by left|]. simpl. f_equal.
  apply IH. intros x Hx. apply Hf. by right.
Qed.

Lemma omap_filter (f : A → option B) (P : A → Prop) (Q : B → Prop)
    `{∀ x, Decision (P x)} `{∀ y, Decision (Q y)} l :
  (∀ x, x ∈ l → ∃ y, f x = Some y ∧ (P x ↔ Q y)) →
  omap f (filter P l) = filter Q (omap f l).
Proof.
  induction l as [|a l IH]; [done|]. intros Hf.
  destruct (Hf a) as (b & Hb & HPQ); [by left|].
  assert (omap f (filter P l) = filter Q (omap f l)) as IH'.
  { apply IH. intros x Hx. apply Hf. by right. }
  csimpl. rewrite Hb. destruct (decide (P a)) as [HP|HP].
  - rewrite filter_cons_True by done. csimpl. rewrite Hb.
    rewrite filter_cons_True by tauto. by rewrite IH'.
  - rewrite filter_cons_False by done.
    rewrite filter_cons_False by tauto. done.
Qed.
End lists.

Ltac run :=
  repeat (progress (unfold mbind, mret, M_bind, M_ret, this, assign, deref,
    store, new, call, panic, the_list, list_Len, list_Back, list_PushFront,
    list_MoveToFront, list_Remove, map_lookup, map_insert, map_delete,
    set_ll, set_cache; simpl)).

Lemma removeElement_run n f l m h t e kv :
  h !! e = Some kv →
  removeElement e (State (mkCache n f (Some l) (Some m)) h t)
  = Some ((), State (mkCache n f (Some (filter (λ x, x ≠ e) l))
                                 (Some (delete (key kv) m)))
                    h (t ++ fired f kv)).
Proof.
  intros Hh. unfold removeElement. run. rewrite Hh. simpl.
  destruct f; simpl; by rewrite ?app_nil_r.
Qed.

Lemma RemoveOldest_run n f l m h t e kv :
  last l = Some e → h !! e = Some kv →
  RemoveOldest (State (mkCache n f (Some l) (Some m)) h t)
  = Some ((), State (mkCache n f (Some (filter (λ x, x ≠ e) l))
                                 (Some (delete (key kv) m)))
                    h (t ++ fired f kv)).
Proof.
  intros Hl Hh. rewrite <- (removeElement_run _ _ _ _ _ _ _ _ Hh).
  unfold RemoveOldest. run. by rewrite Hl.
Qed.

Lemma Remove_run n f l m h t k e kv :
  m !! k = Some e → h !! e = Some kv →
  Remove k (State (mkCache n f (Some l) (Some m)) h t)
  = Some ((), State (mkCache n f (Some (filter (λ x, x ≠ e) l))
                                 (Some (delete (key kv) m)))
                    h (t ++ fired f kv)).
Proof.
  intros Hm Hh. rewrite <- (removeElement_run _ _ _ _ _ _ _ _ Hh).
  unfold Remove. run. by rewrite Hm.
Qed.

Lemma Get_run n f l m h t k e kv :
  m !! k = Some e → e ∈ l → h !! e = Some kv →
  Get k (State (mkCache n f (Some l) (Some m)) h t)
  = Some ((value kv, true),
          State (mkCache n f (Some (e :: filter (λ x, x ≠ e) l)) (Some m))
                h t).
Proof.
  intros Hm Hl Hh. unfold Get. run. rewrite Hm. simpl.
  rewrite decide_True by done. run. by rewrite Hh.
Qed.

Lemma Get_run_miss s k :
  ¬ present k s → Get k s = Some ((nil_value, false), s).
Proof.
  destruct s as [[n f ol [m|]] h t]; [|done].
  unfold present, Get. run. intros Hk.
  destruct (m !! k); [|done]. by destruct Hk.
Qed.

Lemma Add_run_hit n f l m h t k v e kv :
  m !! k = Some e → e ∈ l → h !! e = Some kv →
  Add k v (State (mkCache n f (Some l) (Some m)) h t)
  = Some ((), State (mkCache n f (Some (e :: filter (λ x, x ≠ e) l))
                                 (Some m))
                    (<[e := Entry (key kv) v]> h) t).
Proof.
  intros Hm Hl Hh. unfold Add. run. rewrite Hm. simpl.
  rewrite decide_True by done. run. by rewrite Hh.
Qed.

Lemma Add_run_new n f l m h t k v :
  m !! k = None →
  Add k v (State (mkCache n f (Some l) (Some m)) h t)
  = if decide (n ≠ 0 ∧ Z.of_nat (S (length l)) > n)%Z
    then RemoveOldest (pushed n f l m h t k v)
    else Some ((), pushed n f l m h t k v).
Proof.
  intros Hm. unfold Add. run. rewrite Hm. simpl.
  by destruct (decide _).
Qed.

Lemma Add_run_nil n f ol h t k v :
  Add k v (State (mkCache n f ol None) h t)
  = Add k v (State (mkCache n f (Some []) (Some ∅)) h t).
Proof. done. Qed.

(** *** The invariant is established and kept *)

Lemma wf_New n f : wf (New n f).
Proof.
  exists []. split_and!; [done|constructor|..].
  - intros k e. by rewrite lookup_empty.
  - intros e Hin. by apply not_elem_of_nil in Hin.
Qed.

Lemma wf_cases s :
  wf s →
  (∃ n f ol h t, s = State (mkCache n f ol None) h t) ∨
  (∃ n f l m h t, s = State (mkCache n f (Some l) (Some m)) h t).
Proof.
  destruct s as [[n f ol [m|]] h t]; [|by eauto 10].
  intros (l & Hl & _). simpl in Hl. subst ol. right. by eauto 10.
Qed.

Lemma wf_empty n f h t : wf (State (mkCache n f (Some []) (Some ∅)) h t).
Proof.
  exists []. split_and!; [done|constructor|..].
  - intros k e. by rewrite lookup_empty.
  - intros e Hin. by apply not_elem_of_nil in Hin.
Qed.

Section init_cache.
Context (n : Z) (f : option F) (l : list ptr) (m : gmap K ptr)
  (h : gmap ptr entry) (t : list event).
Hypothesis Hwf : wf (State (mkCache n f (Some l) (Some m)) h t).

Lemma wf_NoDup : NoDup l.
Proof. by destruct Hwf as (? & [= <-] & ? & _). Qed.

Lemma wf_map k e :
  m !! k = Some e → e ∈ l ∧ ∃ v, h !! e = Some (Entry k v).
Proof. destruct Hwf as (? & [= <-] & _ & Hm & _). apply Hm. Qed.

Lemma wf_list e :
  e ∈ l → ∃ kv, h !! e = Some kv ∧ m !! key kv = Some e.
Proof. destruct Hwf as (? & [= <-] & _ & _ & Hl). apply Hl. Qed.

Lemma wf_key k e kv : m !! k = Some e → h !! e = Some kv → key kv = k.
Proof.
  intros Hm Hh. destruct (wf_map _ _ Hm) as (_ & v & Hv).
  rewrite Hh in Hv. by injection Hv as ->.
Qed.

Lemma wf_elem e kv : e ∈ l → h !! e = Some kv → m !! key kv = Some e.
Proof.
  intros Hl Hh. destruct (wf_list _ Hl) as (kv' & Hkv' & Hm).
  rewrite Hh in Hkv'. by injection Hkv' as <-.
Qed.

Lemma wf_fresh : fresh (dom h) ∉ l.
Proof.
  intros (kv & Hh & _)%wf_list.
  apply (is_fresh (dom h)). apply elem_of_dom. by exists kv.
Qed.

Lemma wf_removed t' e kv :
  e ∈ l → h !! e = Some kv →
  wf (State (mkCache n f (Some (filter (λ x, x ≠ e) l))
                         (Some (delete (key kv) m))) h t').
Proof.
  intros He Hh. unfold wf; simpl. eexists. split_and!; [done|apply NoDup_filter, wf_NoDup|..].
  - intros k e' [Hne Hk]%lookup_delete_Some.
    destruct (wf_map _ _ Hk) as [Hin Hv]. split; [|done].
    apply list_elem_of_filter. split; [|done]. intros ->.
    by rewrite (wf_key _ _ _ Hk Hh) in Hne.
  - intros e' [Hne Hin]%list_elem_of_filter.
    destruct (wf_list _ Hin) as (kv' & Hkv' & Hm'). exists kv'.
    split; [done|]. rewrite lookup_delete_ne; [done|]. intros Heq.
    pose proof (wf_elem _ _ He Hh) as Hm. rewrite Heq, Hm' in Hm.
    congruence.
Qed.

Lemma wf_touched t' e kv v :
  e ∈ l → h !! e = Some kv →
  wf (State (mkCache n f (Some (e :: filter (λ x, x ≠ e) l)) (Some m))
            (<[e := Entry (key kv) v]> h) t').
Proof.
  intros He Hh. unfold wf; simpl. eexists. split_and!; [done|..].
  - apply NoDup_cons. split; [|apply NoDup_filter, wf_NoDup].
    rewrite list_elem_of_filter. tauto.
  - intros k e' Hk. destruct (wf_map _ _ Hk) as [Hin [v' Hv']]. split.
    + destruct (decide (e' = e)) as [->|Hne]; [left|right].
      by apply list_elem_of_filter.
    + destruct (decide (e' = e)) as [->|Hne].
      * rewrite lookup_insert_eq, (wf_key _ _ _ Hk Hh). eauto.
      * rewrite lookup_insert_ne by done. eauto.
  - intros e' Hin.
    assert (e' ∈ l) as Hin'.
    { apply elem_of_cons in Hin as [->|[_ ?]%list_elem_of_filter]; done. }
    destruct (decide (e' = e)) as [->|Hne].
    + rewrite lookup_insert_eq. eexists. split; [done|]. simpl.
      by apply wf_elem.
    + rewrite lookup_insert_ne by done. by apply wf_list.
Qed.

Lemma wf_pushed k v : m !! k = None → wf (pushed n f l m h t k v).
Proof.
  intros Hk. pose proof wf_fresh as Hfr. unfold wf, pushed; simpl.
  eexists. split_and!; [done|..].
  - apply NoDup_cons. split; [done|apply wf_NoDup].
  - intros k' e' [[<- <-]|[Hne Hk']]%lookup_insert_Some.
    + split; [left|]. rewrite lookup_insert_eq. eauto.
    + destruct (wf_map _ _ Hk') as [Hin Hv]. split; [by right|].
      rewrite lookup_insert_ne; [done|]. by intros <-.
  - intros e' [->|Hin]%elem_of_cons.
    + rewrite lookup_insert_eq. eexists. split; [done|]. simpl.
      by rewrite lookup_insert_eq.
    + destruct (wf_list _ Hin) as (kv' & Hkv' & Hm').
      rewrite lookup_insert_ne by (by intros <-).
      exists kv'. split; [done|]. rewrite lookup_insert_ne; [done|].
      intros ->. by rewrite Hk in Hm'.
Qed.

(** The entries of the states the methods lead to. *)

Lemma entries_init t' : 
  entries (State (mkCache n f (Some l) (Some m)) h t') = omap (h !!.) l.
Proof. done. Qed.

Lemma entries_length :
  length (entries (State (mkCache n f (Some l) (Some m)) h t)) = length l.
Proof.
  apply omap_total. intros e (kv & Hkv & _)%wf_list. by exists kv.
Qed.

Lemma entries_removed e kv :
  e ∈ l → h !! e = Some kv →
  omap (h !!.) (filter (λ x, x ≠ e) l)
  = filter (λ x, key x ≠ key kv) (omap (h !!.) l).
Proof.
  intros He Hh. apply omap_filter. intros x Hx.
  destruct (wf_list _ Hx) as (kvx & Hkvx & Hmx). exists kvx.
  split; [done|]. pose proof (wf_elem _ _ He Hh) as Hme. split.
  - intros Hne Hkey. rewrite Hkey, Hme in Hmx. congruence.
  - intros Hne ->. rewrite Hh in Hkvx. congruence.
Qed.

Lemma entries_touched e kv v :
  e ∈ l → h !! e = Some kv →
  omap (<[e := Entry (key kv) v]> h !!.) (e :: filter (λ x, x ≠ e) l)
  = Entry (key kv) v :: filter (λ x, key x ≠ key kv) (omap (h !!.) l).
Proof.
  intros He Hh. csimpl. rewrite lookup_insert_eq. f_equal.
  rewrite <- (entries_removed _ _ He Hh). apply omap_ext_in.
  intros x [Hne _]%list_elem_of_filter. by rewrite lookup_insert_ne.
Qed.

Lemma entries_pushed k v :
  entries (pushed n f l m h t k v) = Entry k v :: omap (h !!.) l.
Proof.
  unfold entries, pushed. csimpl. rewrite lookup_insert_eq. f_equal.
  apply omap_ext_in. intros x Hx. rewrite lookup_insert_ne; [done|].
  intros <-. by apply wf_fresh.
Qed.

Lemma entries_back l' e kv :
  l = l' ++ [e] → h !! e = Some kv →
  omap (h !!.) l = omap (h !!.) l' ++ [kv] ∧
  filter (λ x, x ≠ e) l = l'.
Proof.
  intros Hl Hh. pose proof wf_NoDup as Hnd. rewrite Hl in Hnd |- *.
  split.
  - rewrite omap_app. csimpl. by rewrite Hh.
  - by apply filter_ne_back.
Qed.

End init_cache.

(** *** What each method does to a well-formed cache *)

Lemma Add_present s k v :
  wf s → present k s →
  ∃ s', Add k v s = Some ((), s') ∧ wf s' ∧ holds k v s' ∧
    entries s' = Entry k v :: filter (λ x, key x ≠ k) (entries s) ∧
    length (entries s') = length (entries s) ∧
    trace s' = trace s ∧ cache (self s') = cache (self s) ∧
    same_config s s'.
Proof.
  intros Hwf Hk. destruct (wf_cases s Hwf) as
    [(n & f & ol & h & t & ->)|(n & f & l & m & h & t & ->)].
  { by destruct Hk as [? [=]]. }
  destruct Hk as [e Hm]. simpl in Hm.
  destruct (wf_map _ _ _ _ _ _ Hwf _ _ Hm) as (Hl & v0 & Hh).
  rewrite (Add_run_hit _ _ _ _ _ _ _ _ _ _ Hm Hl Hh).
  pose proof (wf_touched _ _ _ _ _ _ Hwf t _ _ v Hl Hh) as Hwf'.
  eexists. split_and!; [done|done| | | |done|done|done].
  - exists e. simpl. by rewrite lookup_insert_eq.
  - apply (entries_touched _ _ _ _ _ _ Hwf _ _ v Hl Hh).
  - rewrite (entries_length _ _ _ _ _ _ Hwf'), (entries_length _ _ _ _ _ _ Hwf).
    apply length_filter_ne; [|done]. by apply (wf_NoDup _ _ _ _ _ _ Hwf).
Qed.

Lemma absent_lookup n f ol m h t k :
  ¬ present k (State (mkCache n f ol (Some m)) h t) → m !! k = None.
Proof.
  unfold present. simpl. destruct (m !! k); [|done]. by intros [].
Qed.

Lemma Add_absent_fits s k v :
  wf s → ¬ present k s →
  ¬ (MaxEntries (self s) ≠ 0 ∧
     Z.of_nat (S (length (entries s))) > MaxEntries (self s))%Z →
  ∃ s', Add k v s = Some ((), s') ∧ wf s' ∧ holds k v s' ∧
    entries s' = Entry k v :: entries s ∧
    trace s' = trace s ∧ same_config s s'.
Proof.
  intros Hwf Hk Hfit. destruct (wf_cases s Hwf) as
    [(n & f & ol & h & t & ->)|(n & f & l & m & h & t & ->)].
  - rewrite Add_run_nil, Add_run_new by apply lookup_empty.
    rewrite decide_False by done. pose proof (wf_empty n f h t) as Hwf0.
    eexists. split_and!; [done| |..|done|done].
    + by apply (wf_pushed _ _ _ _ _ _ Hwf0).
    + exists (fresh (dom h)). simpl. by rewrite !lookup_insert_eq.
    + by rewrite (entries_pushed _ _ _ _ _ _ Hwf0).
  - apply absent_lookup in Hk. rewrite (Add_run_new _ _ _ _ _ _ _ _ Hk).
    rewrite (entries_length _ _ _ _ _ _ Hwf) in Hfit.
    rewrite decide_False by done.
    eexists. split_and!; [done| |..|done|done].
    + by apply (wf_pushed _ _ _ _ _ _ Hwf).
    + exists (fresh (dom h)). simpl. by rewrite !lookup_insert_eq.
    + by rewrite (entries_pushed _ _ _ _ _ _ Hwf).
Qed.

Lemma Add_evicts_init n f l m h t k v :
  wf (State (mkCache n f (Some l) (Some m)) h t) →
  m !! k = None → n ≠ 0%Z → (Z.of_nat (S (length l)) > n)%Z →
  ∃ s' front kv,
    Add k v (State (mkCache n f (Some l) (Some m)) h t) = Some ((), s') ∧
    wf s' ∧
    Entry k v :: omap (h !!.) l = front ++ [kv] ∧ entries s' = front ∧
    trace s' = t ++ fired f kv ∧
    MaxEntries (self s') = n ∧ OnEvicted (self s') = f ∧
    ¬ present (key kv) s' ∧ (l ≠ [] → holds k v s').
Proof.
  intros Hwf Hk Hn Hlen. rewrite (Add_run_new _ _ _ _ _ _ _ _ Hk).
  rewrite decide_True by done.
  pose proof (wf_pushed _ _ _ _ _ _ Hwf k v Hk) as Hwf1.
  pose proof (entries_pushed _ _ _ _ _ _ Hwf k v) as Hent.
  pose proof (wf_fresh _ _ _ _ _ _ Hwf) as Hfr.
  unfold pushed in *. set (e := fresh (dom h)) in *.
  destruct (last (e :: l)) as [eb|] eqn:Hlast;
    [|by apply last_None in Hlast].
  pose proof Hlast as [l' Hl']%last_Some.
  assert (eb ∈ e :: l) as Hin.
  { rewrite Hl'. apply elem_of_app. right. by left. }
  destruct (wf_list _ _ _ _ _ _ Hwf1 _ Hin) as (kv & Hkv & Hmkv).
  rewrite (RemoveOldest_run _ _ _ _ _ _ _ _ Hlast Hkv).
  destruct (entries_back _ _ _ _ _ _ Hwf1 _ _ _ Hl' Hkv) as [Hb1 Hb2].
  eexists _, (omap (<[e := Entry k v]> h !!.) l'), kv.
  split_and!; [done| |..|done|done|done| |].
  - by apply (wf_removed _ _ _ _ _ _ Hwf1).
  - rewrite <- Hent, <- Hb1. done.
  - unfold entries. simpl. by rewrite Hb2.
  - unfold present. simpl. rewrite lookup_delete_eq. by intros [? [=]].
  - intros Hne. exists e. simpl. rewrite lookup_insert_eq. split; [|done].
    rewrite lookup_delete_ne, lookup_insert_eq; [done|]. intros Hkey.
    rewrite Hkey, lookup_insert_eq in Hmkv. injection Hmkv as <-.
    destruct l as [|a l0]; [done|]. rewrite last_cons_cons in Hlast.
    apply last_Some_elem_of in Hlast. done.
Qed.

Lemma Add_absent_evicts s k v :
  wf s → ¬ present k s →
  MaxEntries (self s) ≠ 0%Z →
  (Z.of_nat (S (length (entries s))) > MaxEntries (self s))%Z →
  ∃ s' front kv,
    Add k v s = Some ((), s') ∧ wf s' ∧
    Entry k v :: entries s = front ++ [kv] ∧ entries s' = front ∧
    trace s' = trace s ++ fired (OnEvicted (self s)) kv ∧
    same_config s s' ∧
    ¬ present (key kv) s' ∧ (entries s ≠ [] → holds k v s').
Proof.
  intros Hwf Hk Hn Hlen. destruct (wf_cases s Hwf) as
    [(n & f & ol & h & t & ->)|(n & f & l & m & h & t & ->)].
  - rewrite Add_run_nil. pose proof (wf_empty n f h t) as Hwf0.
    destruct (Add_evicts_init _ _ _ _ _ _ k v Hwf0)
      as (s' & front & kv & -> & ? & ? & ? & ? & ? & ? & ? & ?);
      [apply lookup_empty|done..|].
    exists s', front, kv. by split_and!.
  - apply absent_lookup in Hk.
    rewrite (entries_length _ _ _ _ _ _ Hwf) in Hlen.
    destruct (Add_evicts_init _ _ _ _ _ _ k v Hwf)
      as (s' & front & kv & -> & ? & ? & ? & ? & ? & ? & ? & Hh);
      [done..|].
    exists s', front, kv. split_and!; try done.
    intros Hne. apply Hh. intros ->. by apply Hne.
Qed.

Lemma present_holds s k : wf s → present k s → ∃ v, holds k v s.
Proof.
  intros Hwf Hk. destruct (wf_cases s Hwf) as
    [(n & f & ol & h & t & ->)|(n & f & l & m & h & t & ->)].
  { by destruct Hk as [? [=]]. }
  destruct Hk as [e Hm]. simpl in Hm.
  destruct (wf_map _ _ _ _ _ _ Hwf _ _ Hm) as (_ & v & Hh).
  exists v, e. done.
Qed.

Lemma holds_entry s k v : wf s → holds k v s → Entry k v ∈ entries s.
Proof.
  intros Hwf (e & Hm & Hh). destruct (wf_cases s Hwf) as
    [(n & f & ol & h & t & ->)|(n & f & l & m & h & t & ->)]; [done|].
  simpl in *. destruct (wf_map _ _ _ _ _ _ Hwf _ _ Hm) as (Hl & _).
  apply list_elem_of_omap. eauto.
Qed.

Lemma Get_present s k v :
  wf s → holds k v s →
  ∃ s', Get k s = Some ((v, true), s') ∧ wf s' ∧
    entries s' = Entry k v :: filter (λ x, key x ≠ k) (entries s) ∧
    length (entries s') = length (entries s) ∧
    trace s' = trace s ∧ cache (self s') = cache (self s) ∧
    heap s' = heap s ∧ same_config s s'.
Proof.
  intros Hwf (e & Hm & Hh). destruct (wf_cases s Hwf) as
    [(n & f & ol & h & t & ->)|(n & f & l & m & h & t & ->)]; [done|].
  simpl in *. destruct (wf_map _ _ _ _ _ _ Hwf _ _ Hm) as (Hl & _).
  rewrite (Get_run _ _ _ _ _ _ _ _ _ Hm Hl Hh).
  pose proof (wf_touched _ _ _ _ _ _ Hwf t _ _ v Hl Hh) as Hwf'.
  pose proof (entries_touched _ _ _ _ _ _ Hwf _ _ v Hl Hh) as Hent.
  simpl in *. rewrite insert_id in Hwf', Hent by done.
  eexists. split_and!; [done..| |done|done|done|done].
  rewrite (entries_length _ _ _ _ _ _ Hwf'), (entries_length _ _ _ _ _ _ Hwf).
  apply length_filter_ne; [|done]. by apply (wf_NoDup _ _ _ _ _ _ Hwf).
Qed.

Lemma Remove_holds s k v :
  wf s → holds k v s →
  ∃ s', Remove k s = Some ((), s') ∧ wf s' ∧
    cache (self s') = delete k <$> cache (self s) ∧
    entries s' = filter (λ x, key x ≠ k) (entries s) ∧
    S (length (entries s')) = length (entries s) ∧
    trace s' = trace s ++ fired (OnEvicted (self s)) (Entry k v) ∧
    same_config s s'.
Proof.
  intros Hwf (e & Hm & Hh). destruct (wf_cases s Hwf) as
    [(n & f & ol & h & t & ->)|(n & f & l & m & h & t & ->)]; [done|].
  simpl in *. destruct (wf_map _ _ _ _ _ _ Hwf _ _ Hm) as (Hl & _).
  rewrite (Remove_run _ _ _ _ _ _ _ _ _ Hm Hh).
  pose proof (wf_removed _ _ _ _ _ _ Hwf (t ++ fired f (Entry k v))
                _ _ Hl Hh) as Hwf'.
  eexists. split_and!; [done|done|done| | |done|done].
  - apply (entries_removed _ _ _ _ _ _ Hwf _ _ Hl Hh).
  - rewrite (entries_length _ _ _ _ _ _ Hwf'), (entries_length _ _ _ _ _ _ Hwf).
    apply length_filter_ne; [|done]. by apply (wf_NoDup _ _ _ _ _ _ Hwf).
Qed.

Lemma Remove_absent s k : ¬ present k s → Remove k s = Some ((), s).
Proof.
  destruct s as [[n f ol [m|]] h t]; [|done].
  intros Hk%absent_lookup. unfold Remove. run. by rewrite Hk.
Qed.

Lemma RemoveOldest_empty s :
  wf s → entries s = [] → RemoveOldest s = Some ((), s).
Proof.
  intros Hwf He. destruct (wf_cases s Hwf) as
    [(n & f & ol & h & t & ->)|(n & f & l & m & h & t & ->)]; [done|].
  pose proof (entries_length _ _ _ _ _ _ Hwf) as Hlen. rewrite He in Hlen.
  by destruct l.
Qed.

Lemma RemoveOldest_back s front kv :
  wf s → entries s = front ++ [kv] →
  ∃ s', RemoveOldest s = Some ((), s') ∧ wf s' ∧ entries s' = front ∧
    trace s' = trace s ++ fired (OnEvicted (self s)) kv ∧
    same_config s s' ∧ ¬ present (key kv) s'.
Proof.
  intros Hwf He. destruct (wf_cases s Hwf) as
    [(n & f & ol & h & t & ->)|(n & f & l & m & h & t & ->)].
  { by destruct front. }
  pose proof (entries_length _ _ _ _ _ _ Hwf) as Hlen.
  destruct (last l) as [eb|] eqn:Hlast.
  2:{ apply last_None in Hlast as ->. rewrite He, length_app in Hlen.
      simpl in Hlen. lia. }
  pose proof Hlast as [l' Hl']%last_Some.
  assert (eb ∈ l) as Hin by by eapply last_Some_elem_of.
  destruct (wf_list _ _ _ _ _ _ Hwf _ Hin) as (kv' & Hkv & Hmkv).
  destruct (entries_back _ _ _ _ _ _ Hwf _ _ _ Hl' Hkv) as [Hb1 Hb2].
  rewrite entries_init, Hb1 in He. apply app_inj_tail in He as [<- <-].
  rewrite (RemoveOldest_run _ _ _ _ _ _ _ _ Hlast Hkv).
  eexists. split_and!; [done| | |done|done|].
  - by apply (wf_removed _ _ _ _ _ _ Hwf).
  - unfold entries. simpl. by rewrite Hb2.
  - unfold present. simpl. rewrite lookup_delete_eq. by intros [? [=]].
Qed.

Lemma Len_run s :
  wf s → Len s = Some (Z.of_nat (length (entries s)), s).
Proof.
  intros Hwf. destruct (wf_cases s Hwf) as
    [(n & f & ol & h & t & ->)|(n & f & l & m & h & t & ->)]; [done|].
  by rewrite (entries_length _ _ _ _ _ _ Hwf).
Qed.

Lemma bind_run {A B} (m : M A) (f : A → M B) s a s' :
  m s = Some (a, s') → (m ≫= f) s = f a s'.
Proof. intros Hm. unfold mbind, M_bind. by rewrite Hm. Qed.

Lemma Clear_body_run n g ol om h t ke kv :
  h !! ke.2 = Some kv →
  Clear_body ke (State (mkCache n (Some g) ol om) h t)
  = Some ((), State (mkCache n (Some g) ol om) h (t ++ fired (Some g) kv)).
Proof. intros Hh. unfold Clear_body. run. by rewrite Hh. Qed.

(** The loop of [Clear]: one callback call per visited map entry. *)
Lemma Clear_loop n g ol om h visit :
  (∀ ke, ke ∈ visit → is_Some (h !! ke.2)) →
  ∀ t, ∃ us,
    mapM Clear_body visit (State (mkCache n (Some g) ol om) h t)
    = Some (us, State (mkCache n (Some g) ol om) h
              (t ++ omap (λ ke, h !! ke.2) visit ≫= fired (Some g))).
Proof.
  induction visit as [|ke visit IH]; intros Hh t.
  { exists []. simpl. by rewrite app_nil_r. }
  destruct (Hh ke) as [kv Hkv]; [by left|].
  destruct (IH (λ x Hx, Hh x (list_elem_of_further _ _ _ Hx))
               (t ++ fired (Some g) kv)) as [us Hus].
  exists (() :: us).
  change (mapM Clear_body (ke :: visit)) with
    (y ← Clear_body ke; k ← mapM Clear_body visit; mret (y :: k)).
  rewrite (bind_run _ _ _ _ _ (Clear_body_run _ _ _ _ _ _ _ _ Hkv)).
  rewrite (bind_run _ _ _ _ _ Hus). csimpl. rewrite Hkv. csimpl.
  by rewrite <- app_assoc.
Qed.

Lemma bind_fired_None (es : list entry) : es ≫= fired None = [].
Proof. induction es as [|kv es IH]; [done|]. by csimpl. Qed.

Lemma bind_fired_Some g (es : list entry) :
  es ≫= fired (Some g) = (λ kv, Evicted g (key kv) (value kv)) <$> es.
Proof. induction es as [|kv es IH]; [done|]. csimpl. by rewrite IH. Qed.

Lemma visit_entries n f l m h t visit :
  wf (State (mkCache n f (Some l) (Some m)) h t) →
  visit ≡ₚ map_to_list m →
  (∀ ke, ke ∈ visit → is_Some (h !! ke.2)) ∧
  omap (λ ke, h !! ke.2) visit ≡ₚ omap (h !!.) l.
Proof.
  intros Hwf Hv. split.
  - intros [k e] Hin. rewrite Hv in Hin. apply elem_of_map_to_list in Hin.
    destruct (wf_map _ _ _ _ _ _ Hwf _ _ Hin) as (_ & v & Hh). by eexists.
  - rewrite Hv. clear visit Hv.
    transitivity (omap (h !!.) (map_to_list m).*2).
    { induction (map_to_list m) as [|[k e] kes IH]; [done|]. csimpl.
      destruct (h !! e); by rewrite IH. }
    apply omap_Permutation, NoDup_Permutation.
    + apply NoDup_fmap_2_strong; [|apply NoDup_map_to_list].
      intros [k1 e1] [k2 e2] H1%elem_of_map_to_list H2%elem_of_map_to_list.
      simpl. intros <-.
      destruct (wf_map _ _ _ _ _ _ Hwf _ _ H1) as (_ & v1 & Hh1).
      pose proof (wf_key _ _ _ _ _ _ Hwf _ _ _ H2 Hh1) as Heq.
      simpl in Heq. by subst.
    + by apply (wf_NoDup _ _ _ _ _ _ Hwf).
    + intros e. rewrite list_elem_of_fmap. split.
      * intros ([k e'] & -> & Hin%elem_of_map_to_list).
        by destruct (wf_map _ _ _ _ _ _ Hwf _ _ Hin).
      * intros (kv & _ & Hm)%(wf_list _ _ _ _ _ _ Hwf).
        exists (key kv, e). split; [done|]. by apply elem_of_map_to_list.
Qed.

Lemma Clear_run s visit :
  wf s → ranges visit s →
  ∃ s' evs,
    Clear visit s = Some ((), s') ∧
    trace s' = trace s ++ evs ∧
    evs ≡ₚ entries s ≫= fired (OnEvicted (self s)) ∧
    ll (self s') = None ∧ cache (self s') = None ∧
    heap s' = heap s ∧ same_config s s'.
Proof.
  intros Hwf Hv. destruct (wf_cases s Hwf) as
    [(n & f & ol & h & t & ->)|(n & f & l & m & h & t & ->)].
  - apply Permutation_nil_r in Hv as ->. exists
      (State (mkCache n f None None) h t), []. simpl.
    rewrite app_nil_r. by destruct f.
  - unfold ranges in Hv. simpl in Hv. destruct f as [g|].
    + destruct (visit_entries _ _ _ _ _ _ _ Hwf Hv) as [Hh Hperm].
      destruct (Clear_loop n g (Some l) (Some m) h visit Hh t)
        as [us Hus].
      eexists _, _. unfold Clear.
      rewrite (bind_run _ _ _ _ _ eq_refl). simpl.
      rewrite (bind_run _ _ _ () _
                 (bind_run _ _ _ _ _ Hus)).
      split_and!; [done..| |done|done|done|done].
      by rewrite entries_init, Hperm.
    + exists (State (mkCache n None None None) h t), []. simpl.
      by rewrite app_nil_r, bind_fired_None.
Qed.

(** Every operation returns, keeps the invariant and the configuration,
    and keeps the number of entries within a positive [MaxEntries]. *)
Lemma exec_step s o :
  wf s → allowed o s →
  ∃ s', exec o s = Some ((), s') ∧ wf s' ∧ same_config s s' ∧
    ((0 < MaxEntries (self s))%Z →
     (Z.of_nat (length (entries s)) ≤ MaxEntries (self s))%Z →
     (Z.of_nat (length (entries s')) ≤ MaxEntries (self s))%Z).
Proof.
  intros Hwf Hok. destruct o as [k v|k|k| | |visit]; simpl.
  - destruct (decide (present k s)) as [Hk|Hk].
    { destruct (Add_present s k v Hwf Hk)
        as (s' & -> & ? & _ & _ & Hlen & _ & _ & ?).
      exists s'. split_and!; [done..|]. rewrite Hlen. done. }
    destruct (decide (MaxEntries (self s) ≠ 0 ∧
        Z.of_nat (S (length (entries s))) > MaxEntries (self s))%Z)
      as [[Hn Hlen]|Hfit].
    + destruct (Add_absent_evicts s k v Hwf Hk Hn Hlen)
        as (s' & front & kv & -> & ? & Hfront & He' & _ & ? & _).
      exists s'. split_and!; [done..|]. intros _. rewrite He'.
      apply (f_equal length) in Hfront. rewrite length_app in Hfront.
      simpl in Hfront. lia.
    + destruct (Add_absent_fits s k v Hwf Hk Hfit)
        as (s' & -> & ? & _ & He' & _ & ?).
      exists s'. split_and!; [done..|]. rewrite He'. simpl. lia.
  - destruct (decide (present k s)) as [Hk|Hk].
    + destruct (present_holds s k Hwf Hk) as [v Hv].
      destruct (Get_present s k v Hwf Hv)
        as (s' & Hget & ? & _ & Hlen & _ & _ & _ & ?).
      exists s'. rewrite (bind_run _ _ _ _ _ Hget).
      split_and!; [done..|]. by rewrite Hlen.
    + exists s. rewrite (bind_run _ _ _ _ _ (Get_run_miss s k Hk)).
      by split_and!.
  - destruct (decide (present k s)) as [Hk|Hk].
    + destruct (present_holds s k Hwf Hk) as [v Hv].
      destruct (Remove_holds s k v Hwf Hv)
        as (s' & -> & ? & _ & _ & Hlen & _ & ?).
      exists s'. split_and!; [done..|]. lia.
    + exists s. rewrite (Remove_absent s k Hk). by split_and!.
  - destruct (entries s) as [|kv0 es] eqn:He using rev_ind.
    + exists s. rewrite (RemoveOldest_empty s Hwf He). rewrite He.
      by split_and!.
    + destruct (RemoveOldest_back s _ _ Hwf He)
        as (s' & -> & ? & He' & _ & ? & _).
      exists s'. split_and!; [done..|]. rewrite He', length_app. simpl. lia.
  - exists s. rewrite (bind_run _ _ _ _ _ (Len_run s Hwf)). by split_and!.
  - destruct (Clear_run s visit Hwf Hok)
      as (s' & evs & -> & _ & _ & Hll & Hc & _ & ?).
    exists s'. split_and!; [done| |done|].
    + unfold wf. by rewrite Hc.
    + unfold entries. rewrite Hc. simpl. lia.
Qed.

Lemma reachable_inv n s :
  reachable n s →
  wf s ∧ MaxEntries (self s) = n ∧
  ((0 < n)%Z → (Z.of_nat (length (entries s)) ≤ n)%Z).
Proof.
  induction 1 as [f|f|s o s' _ (Hwf & Hn & Hlen) Hok Hex
                 |s f _ (Hwf & Hn & Hlen)].
  - split_and!; [apply wf_New|done|simpl; lia].
  - split_and!; [done|done|simpl; lia].
  - destruct (exec_step s o Hwf Hok) as (s'' & Hex' & ? & [Hn' _] & Hb).
    rewrite Hex in Hex'. injection Hex' as <-. rewrite Hn in *.
    split_and!; [done..|]. intros Hpos. apply Hb; auto.
  - split_and!; [|done..].
    destruct (wf_cases s Hwf) as
      [(? & ? & ? & ? & ? & ->)|(? & ? & ? & ? & ? & ? & ->)]; done.
Qed.

Lemma execs_reachable n os : ∀ s s',
  reachable n s → Forall (λ o, ∀ s0, allowed o s0) os →
  execs os s = Some s' → reachable n s'.
Proof.
  induction os as [|o os IH]; intros s s' Hs Hos Hex; simpl in Hex.
  { by injection Hex as <-. }
  apply Forall_cons in Hos as [Ho Hos].
  destruct (exec o s) as [[[] s1]|] eqn:Ho1; [|done].
  apply (IH s1); [|done..]. by apply (reach_exec n s o).
Qed.

(** *** The properties of the specification *)

(** C1, amended.  [Remove] of a key that is present returns, deletes the
    key from the lookup mapping and its entry from the recency order (one
    entry fewer, the others in their order), and calls [OnEvicted] once,
    with the removed key and value, when the callback is configured; with
    no callback configured it calls nothing. *)
Theorem Remove_purges_and_notifies s k :
  wf s → present k s →
  ∃ s' v,
    Remove k s = Some ((), s') ∧ wf s' ∧
    Entry k v ∈ entries s ∧
    cache (self s') = delete k <$> cache (self s) ∧ ¬ present k s' ∧
    entries s' = filter (λ kv, key kv ≠ k) (entries s) ∧
    S (length (entries s')) = length (entries s) ∧
    trace s' = trace s ++ fired (OnEvicted (self s)) (Entry k v).
Proof.
  intros Hwf Hk. destruct (present_holds s k Hwf Hk) as [v Hv].
  destruct (Remove_holds s k v Hwf Hv)
    as (s' & HR & Hwf' & Hc & He & Hlen & Ht & _).
  exists s', v. split_and!; [done|done|by apply holds_entry|done| |done..].
  unfold present. rewrite Hc. destruct (cache (self s)) as [m|]; simpl.
  - rewrite lookup_delete_eq. by intros [? [=]].
  - by intros [? [=]].
Qed.


(** C5, amended.  On a cache whose [MaxEntries] is not negative, or that
    holds an entry already, [Add(key, value)] followed at once by [Get(key)]
    returns [(value, true)]. *)
Theorem Add_then_Get s k v :
  wf s → (0 ≤ MaxEntries (self s))%Z ∨ entries s ≠ [] →
  ∃ s1 s2, Add k v s = Some ((), s1) ∧ Get k s1 = Some ((v, true), s2).
Proof.
  intros Hwf Hcap.
  assert (∃ s1, Add k v s = Some ((), s1) ∧ wf s1 ∧ holds k v s1)
    as (s1 & Hadd & Hwf1 & Hv).
  { destruct (decide (present k s)) as [Hk|Hk].
    { destruct (Add_present s k v Hwf Hk) as (s1 & ? & ? & ? & _).
      by exists s1. }
    destruct (decide (MaxEntries (self s) ≠ 0 ∧
        Z.of_nat (S (length (entries s))) > MaxEntries (self s))%Z)
      as [[Hn Hlen]|Hfit].
    - destruct (Add_absent_evicts s k v Hwf Hk Hn Hlen)
        as (s1 & front & kv & ? & ? & _ & _ & _ & _ & _ & Hh).
      exists s1. split_and!; [done..|]. apply Hh.
      destruct Hcap as [Hcap|Hcap]; [|done].
      intros He. rewrite He in Hlen. simpl in Hlen. lia.
    - destruct (Add_absent_fits s k v Hwf Hk Hfit) as (s1 & ? & ? & ? & _).
      by exists s1. }
  destruct (Get_present s1 k v Hwf1 Hv) as (s2 & ? & _).
  by exists s1, s2.
Qed.

(** C7.  [Clear] on a cache of [n] entries calls [OnEvicted], when it is
    configured, once for each entry, [n] calls in all, in the order in which
    the map happens to be visited; afterwards [Len] returns 0. *)
Theorem Clear_notifies_every_entry s visit :
  wf s → ranges visit s →
  ∃ s' evs,
    Clear visit s = Some ((), s') ∧
    trace s' = trace s ++ evs ∧
    evs ≡ₚ entries s ≫= fired (OnEvicted (self s)) ∧
    (∀ f, OnEvicted (self s) = Some f →
       evs ≡ₚ (λ kv, Evicted f (key kv) (value kv)) <$> entries s ∧
       Len s = Some (Z.of_nat (length evs), s)) ∧
    Len s' = Some (0%Z, s') ∧ entries s' = [].
Proof.
  intros Hwf Hv.
  destruct (Clear_run s visit Hwf Hv)
    as (s' & evs & HC & Ht & Hperm & Hll & Hc & _).
  exists s', evs. split_and!; [done..| | |].
  - intros f Hf. rewrite Hf, bind_fired_Some in Hperm. split; [done|].
    rewrite (Len_run s Hwf), Hperm, length_fmap. done.
  - unfold Len. run. by rewrite Hc.
  - unfold entries. by rewrite Hc.
Qed.

(** C8.  On a cache that has not been initialised (both private fields
    nil) no public operation panics: [Len] returns 0, [Get] returns nil and
    false, [Remove], [RemoveOldest] and [Clear] change nothing, and [Add]
    creates the list and the map before it inserts. *)
Theorem zero_value_cache_total n f h t k v :
  Len (State (mkCache n f None None) h t)
  = Some (0%Z, State (mkCache n f None None) h t) ∧
  Get k (State (mkCache n f None None) h t)
  = Some ((nil_value, false), State (mkCache n f None None) h t) ∧
  Remove k (State (mkCache n f None None) h t)
  = Some ((), State (mkCache n f None None) h t) ∧
  RemoveOldest (State (mkCache n f None None) h t)
  = Some ((), State (mkCache n f None None) h t) ∧
  Clear [] (State (mkCache n f None None) h t)
  = Some ((), State (mkCache n f None None) h t) ∧
  ∃ s', Add k v (State (mkCache n f None None) h t) = Some ((), s') ∧
        is_Some (ll (self s')) ∧ is_Some (cache (self s')) ∧ wf s' ∧
        ((0 ≤ n)%Z → holds k v s' ∧ entries s' = [Entry k v]).
Proof.
  split_and!; [done..|by destruct f|].
  rewrite Add_run_nil, Add_run_new by apply lookup_empty.
  pose proof (wf_empty n f h t) as Hwf0.
  pose proof (wf_pushed _ _ _ _ _ _ Hwf0 k v (lookup_empty _)) as Hwf1.
  pose proof (entries_pushed _ _ _ _ _ _ Hwf0 k v) as Hent.
  unfold pushed in *. destruct (decide _) as [[Hn Hlen]|Hfit].
  - rewrite (RemoveOldest_run _ _ _ _ _ _ (fresh (dom h)) (Entry k v))
      by (done || apply lookup_insert_eq).
    eexists. split; [done|]. split_and!; [by eexists..| |simpl in *; lia].
    apply (wf_removed _ _ _ _ _ _ Hwf1); [by left|apply lookup_insert_eq].
  - eexists. split; [done|]. split_and!; [by eexists..|done|]. intros _.
    split; [|done]. exists (fresh (dom h)). simpl.
    by rewrite !lookup_insert_eq.
Qed.

(** C9.  [Get] of a key that is not present returns nil and false and
    leaves the whole state as it was: the entries, their order and what
    [Len] returns are those before the call, and no callback is called. *)
Theorem Get_absent_unchanged s k :
  ¬ present k s →
  ∃ s', Get k s = Some ((nil_value, false), s') ∧ s' = s ∧
        entries s' = entries s ∧ Len s' = Len s ∧ trace s' = trace s.
Proof.
  intros Hk. exists s. by rewrite (Get_run_miss s k Hk).
Qed.

(** C10.  [Clear] returns and leaves [MaxEntries] and [OnEvicted] as they
    were; it sets the list and the map to nil and nothing else. *)
Theorem Clear_keeps_configuration s visit :
  wf s → ranges visit s →
  ∃ s', Clear visit s = Some ((), s') ∧
    MaxEntries (self s') = MaxEntries (self s) ∧
    OnEvicted (self s') = OnEvicted (self s) ∧
    ll (self s') = None ∧ cache (self s') = None ∧ heap s' = heap s.
Proof.
  intros Hwf Hv.
  destruct (Clear_run s visit Hwf Hv)
    as (s' & evs & HC & _ & _ & Hll & Hc & Hh & Hn & Hf).
  by exists s'.
Qed.

(** *** The cache as a list of entries: proofs *)

Lemma removelast_option_last {A} (l : list A) :
  removelast l ++ option_list (last l) = l.
Proof.
  induction l as [|a l _] using rev_ind; [done|].
  by rewrite removelast_last, last_snoc.
Qed.

Lemma filter_key_ne_absent k (es : list entry) :
  k ∉ key <$> es → filter (λ x, key x ≠ k) es = es.
Proof.
  induction es as [|a es IH]; [done|]. csimpl.
  intros [Hne Hk]%not_elem_of_cons.
  rewrite filter_cons_True by congruence. by rewrite IH.
Qed.

Lemma entry_of_absent k (es : list entry) :
  k ∉ key <$> es → entry_of k es = None.
Proof.
  unfold entry_of. induction es as [|a es IH]; [done|]. csimpl.
  intros [Hne Hk]%not_elem_of_cons.
  rewrite filter_cons_False by congruence. auto.
Qed.

Lemma entry_of_unique (es : list entry) kv :
  NoDup (key <$> es) → kv ∈ es → entry_of (key kv) es = Some kv.
Proof.
  unfold entry_of. induction es as [|a es IH]; csimpl.
  { by intros _ ?%elem_of_nil. }
  intros [Ha Hnd]%NoDup_cons [->|Hin]%elem_of_cons.
  - by rewrite filter_cons_True.
  - rewrite filter_cons_False; [auto|]. intros Heq. apply Ha. rewrite Heq.
    apply list_elem_of_fmap. eauto.
Qed.

Lemma entry_of_key k (es : list entry) kv :
  entry_of k es = Some kv → key kv = k ∧ kv ∈ es.
Proof.
  unfold entry_of. intros Hh%head_Some_elem_of.
  by apply list_elem_of_filter in Hh.
Qed.

Lemma keys_remove (es : list entry) kv :
  NoDup (key <$> es) → kv ∈ es →
  key kv :: (key <$> filter (λ x, key x ≠ key kv) es) ≡ₚ key <$> es.
Proof.
  induction es as [|a es IH]; csimpl.
  { by intros _ ?%elem_of_nil. }
  intros [Ha Hnd]%NoDup_cons [->|Hin]%elem_of_cons.
  - rewrite filter_cons_False by naive_solver.
    by rewrite filter_key_ne_absent.
  - rewrite filter_cons_True.
    + csimpl. rewrite Permutation_swap. by rewrite IH.
    + intros Heq. apply Ha. rewrite Heq. apply list_elem_of_fmap. eauto.
Qed.

Lemma NoDup_omap_fmap {A B C} (f : A → option B) (g : B → C) (l : list A) :
  NoDup l →
  (∀ x y a b, x ∈ l → y ∈ l → f x = Some a → f y = Some b →
              g a = g b → x = y) →
  NoDup (g <$> omap f l).
Proof.
  induction l as [|x l IH]; csimpl; [constructor|].
  intros [Hx Hnd]%NoDup_cons Hinj.
  assert (NoDup (g <$> omap f l)) as IH'.
  { apply IH; [done|]. intros y z a b Hy Hz. apply Hinj; by right. }
  destruct (f x) as [a|] eqn:Hfx; [|done]. csimpl.
  apply NoDup_cons. split; [|done].
  intros (b & Hg & (y & Hy & Hfy)%list_elem_of_omap)%list_elem_of_fmap.
  apply Hx. rewrite (Hinj x y a b); [done|by left|by right|done..].
Qed.

Lemma wf_keys s : wf s → NoDup (key <$> entries s).
Proof.
  intros Hwf. destruct (wf_cases s Hwf) as
    [(n & f & ol & h & t & ->)|(n & f & l & m & h & t & ->)].
  { constructor. }
  rewrite entries_init. apply NoDup_omap_fmap.
  { by apply (wf_NoDup _ _ _ _ _ _ Hwf). }
  intros x y a b Hx Hy Ha Hb Hkey.
  pose proof (wf_elem _ _ _ _ _ _ Hwf _ _ Hx Ha) as H1.
  pose proof (wf_elem _ _ _ _ _ _ Hwf _ _ Hy Hb) as H2. congruence.
Qed.

Lemma holds_iff_entry s k v : wf s → holds k v s ↔ Entry k v ∈ entries s.
Proof.
  intros Hwf. split; [by apply holds_entry|].
  destruct (wf_cases s Hwf) as
    [(n & f & ol & h & t & ->)|(n & f & l & m & h & t & ->)].
  { by intros ?%elem_of_nil. }
  rewrite entries_init. intros (e & He & Hh)%list_elem_of_omap.
  exists e. split; [|done].
  apply (wf_elem _ _ _ _ _ _ Hwf _ _ He Hh).
Qed.

Lemma present_keys s k : wf s → present k s ↔ k ∈ key <$> entries s.
Proof.
  intros Hwf. split.
  - intros [v Hv%holds_entry]%present_holds; [|done..].
    apply list_elem_of_fmap. by exists (Entry k v).
  - intros ([k' v] & -> & Hin)%list_elem_of_fmap.
    apply holds_iff_entry in Hin as (e & He & _); [|done]. by exists e.
Qed.

Lemma holds_entry_of s k v :
  wf s → holds k v s → entry_of k (entries s) = Some (Entry k v).
Proof.
  intros Hwf Hv%holds_entry; [|done].
  by apply (entry_of_unique _ (Entry k v)); [apply wf_keys|].
Qed.

Lemma map_size s :
  wf s → from_option size 0 (cache (self s)) = length (entries s).
Proof.
  intros Hwf. destruct (wf_cases s Hwf) as
    [(n & f & ol & h & t & ->)|(n & f & l & m & h & t & ->)]; [done|].
  simpl. destruct (visit_entries _ _ _ _ _ _ (map_to_list m) Hwf)
    as [Hh Hperm]; [done|].
  rewrite entries_init, <- Hperm, omap_total by done.
  symmetry. apply length_map_to_list.
Qed.

(** The cache does to its entries what [model] says, and calls the
    callback for the entries that [model] lists. *)
Lemma exec_model s o :
  wf s → allowed o s →
  ∃ s' evs,
    exec o s = Some ((), s') ∧ wf s' ∧ same_config s s' ∧
    entries s' = (model (MaxEntries (self s)) o (entries s)).1 ∧
    trace s' = trace s ++ evs ∧
    evs ≡ₚ (model (MaxEntries (self s)) o (entries s)).2
             ≫= fired (OnEvicted (self s)).
Proof.
  intros Hwf Hok. destruct o as [k v|k|k| | |visit]; cbn [exec model].
  - destruct (decide (k ∈ key <$> entries s)) as [Hk|Hk]; cbn [fst snd].
    { apply present_keys in Hk; [|done].
      destruct (Add_present s k v Hwf Hk)
        as (s' & -> & ? & _ & He & _ & Ht & _ & ?).
      exists s', []. rewrite app_nil_r. by split_and!. }
    rewrite <- present_keys in Hk by done.
    destruct (decide (MaxEntries (self s) ≠ 0 ∧
        Z.of_nat (S (length (entries s))) > MaxEntries (self s))%Z)
      as [[Hn Hlen]|Hfit]; cbn [fst snd].
    + destruct (Add_absent_evicts s k v Hwf Hk Hn Hlen)
        as (s' & front & kv & -> & ? & Hfront & He' & Ht & ? & _).
      exists s', (fired (OnEvicted (self s)) kv).
      rewrite Hfront, removelast_last, last_snoc. simpl.
      rewrite app_nil_r. by split_and!.
    + destruct (Add_absent_fits s k v Hwf Hk Hfit)
        as (s' & -> & ? & _ & He' & Ht & ?).
      exists s', []. rewrite app_nil_r. by split_and!.
  - destruct (decide (present k s)) as [Hk|Hk].
    + destruct (present_holds s k Hwf Hk) as [v Hv].
      destruct (Get_present s k v Hwf Hv)
        as (s' & Hget & ? & He & _ & Ht & _ & _ & ?).
      exists s', []. rewrite (bind_run _ _ _ _ _ Hget), app_nil_r.
      rewrite (holds_entry_of s k v) by done. by split_and!.
    + exists s, []. rewrite (bind_run _ _ _ _ _ (Get_run_miss s k Hk)).
      rewrite present_keys in Hk by done.
      rewrite app_nil_r, entry_of_absent by done. by split_and!.
  - destruct (decide (present k s)) as [Hk|Hk].
    + destruct (present_holds s k Hwf Hk) as [v Hv].
      destruct (Remove_holds s k v Hwf Hv)
        as (s' & -> & ? & _ & He & _ & Ht & ?).
      exists s', (fired (OnEvicted (self s)) (Entry k v)).
      rewrite (holds_entry_of s k v) by done. simpl.
      rewrite app_nil_r. by split_and!.
    + exists s, []. rewrite (Remove_absent s k Hk), app_nil_r.
      rewrite present_keys in Hk by done.
      rewrite entry_of_absent, filter_key_ne_absent by done.
      by split_and!.
  - destruct (entries s) as [|kv0 es _] eqn:He using rev_ind.
    + exists s, []. rewrite (RemoveOldest_empty s Hwf He), app_nil_r.
      by split_and!.
    + destruct (RemoveOldest_back s _ _ Hwf He)
        as (s' & -> & ? & He' & Ht & ? & _).
      exists s', (fired (OnEvicted (self s)) kv0).
      rewrite removelast_last, last_snoc. simpl. rewrite app_nil_r.
      by split_and!.
  - exists s, []. rewrite (bind_run _ _ _ _ _ (Len_run s Hwf)), app_nil_r.
    by split_and!.
  - destruct (Clear_run s visit Hwf Hok)
      as (s' & evs & -> & Ht & Hevs & Hll & Hc & _ & ?).
    exists s', evs. split_and!; [done| |done| |done|done].
    + unfold wf. by rewrite Hc.
    + unfold entries. by rewrite Hc.
Qed.

Lemma touch_perm (es : list entry) kv :
  NoDup (key <$> es) → kv ∈ es → touch kv es ≡ₚ es.
Proof.
  unfold touch. induction es as [|a es IH]; csimpl.
  { by intros _ ?%elem_of_nil. }
  intros [Ha Hnd]%NoDup_cons [->|Hin]%elem_of_cons.
  - rewrite filter_cons_False by naive_solver.
    by rewrite filter_key_ne_absent.
  - rewrite filter_cons_True.
    + rewrite Permutation_swap. by rewrite IH.
    + intros Heq. apply Ha. rewrite Heq. apply list_elem_of_fmap. eauto.
Qed.

(** With no bound, [Add], [Get] and [Len] let no entry go. *)
Lemma model_keeps o (es : list entry) :
  keeps o →
  (model 0 o es).2 = [] ∧
  ∀ k, k ∈ key <$> es → k ∈ key <$> (model 0 o es).1.
Proof.
  destruct o as [k v|k|k| | |visit]; try done; intros _; cbn [model].
  - destruct (decide (k ∈ key <$> es)) as [Hk|Hk]; cbn [fst snd].
    + split; [done|]. intros k' Hk'. unfold touch. csimpl.
      destruct (decide (k' = k)) as [->|Hne]; [by left|]. right.
      apply list_elem_of_fmap in Hk' as (kv & -> & Hkv).
      apply list_elem_of_fmap. exists kv. split; [done|].
      by apply list_elem_of_filter.
    + rewrite decide_False by lia. split; [done|]. intros k' Hk'.
      csimpl. by right.
  - split; [done|]. destruct (entry_of k es) as [kv|] eqn:Hkv; [|done].
    apply entry_of_key in Hkv as [<- Hin]. intros k' Hk'. cbn [fst].
    unfold touch. csimpl.
    destruct (decide (k' = key kv)) as [->|Hne]; [by left|]. right.
    apply list_elem_of_fmap in Hk' as (kv' & -> & Hkv').
    apply list_elem_of_fmap. exists kv'. split; [done|].
    by apply list_elem_of_filter.
Qed.

(** The keys in the cache and the keys that left it are, together, the
    keys there were and the key that came. *)
Lemma model_conserves n o (es : list entry) :
  NoDup (key <$> es) →
  (key <$> (model n o es).1) ++ (key <$> (model n o es).2)
  ≡ₚ added o es ++ (key <$> es).
Proof.
  intros Hnd.
  destruct o as [k v|k|k| | |visit]; cbn [model added fst snd app].
  - destruct (decide (k ∈ key <$> es)) as [Hk|Hk]; cbn [fst snd].
    + apply list_elem_of_fmap in Hk as (kv & -> & Hkv).
      rewrite app_nil_r. simpl. unfold touch. csimpl.
      by apply keys_remove.
    + destruct (decide _); cbn [fst snd].
      * by rewrite <- fmap_app, removelast_option_last.
      * by rewrite app_nil_r.
  - rewrite app_nil_r. simpl.
    destruct (entry_of k es) as [kv|] eqn:Hkv; [|done].
    apply entry_of_key in Hkv as [<- Hin]. by rewrite touch_perm.
  - simpl. destruct (decide (k ∈ key <$> es)) as [Hk|Hk].
    + apply list_elem_of_fmap in Hk as (kv & -> & Hkv).
      rewrite entry_of_unique by done. simpl.
      rewrite <- Permutation_cons_append. by apply keys_remove.
    + rewrite entry_of_absent, filter_key_ne_absent by done.
      by rewrite app_nil_r.
  - by rewrite <- fmap_app, removelast_option_last.
  - by rewrite app_nil_r.
  - done.
Qed.

(** [Add] takes one entry in and lets at most one go. *)
Lemma model_Add_size n k v (es : list entry) :
  NoDup (key <$> es) →
  length es ≤ length (model n (OpAdd k v) es).1 ∧
  length (model n (OpAdd k v) es).1 ≤ S (length es) ∧
  length (model n (OpAdd k v) es).2 ≤ 1.
Proof.
  intros Hnd. cbn [model].
  destruct (decide (k ∈ key <$> es)) as [Hk|Hk]; cbn [fst snd].
  - apply list_elem_of_fmap in Hk as (kv & -> & Hkv).
    assert (length (touch (Entry (key kv) v) es) = length es) as ->.
    { transitivity (length (touch kv es)); [done|].
      by rewrite touch_perm. }
    simpl. lia.
  - destruct (decide _); cbn [fst snd]; [|simpl; lia].
    pose proof (removelast_option_last (Entry k v :: es)) as Hsplit.
    apply (f_equal length) in Hsplit. rewrite length_app in Hsplit.
    destruct (last (Entry k v :: es)) eqn:Hlast; simpl in *; [lia|].
    by apply last_None in Hlast.
Qed.

Lemma length_bind_fired f (es : list entry) :
  length (es ≫= fired f) ≤ length es.
Proof.
  destruct f as [g|].
  - by rewrite bind_fired_Some, length_fmap.
  - rewrite bind_fired_None. simpl. lia.
Qed.

(** *** Further properties of the code *)

(** X1.  In every cache a program can hold, the map and the list describe
    the same entries: no key has two entries in the recency order, a key is
    in the map exactly when it has an entry, the map leads from a key to
    the entry of this key, and [Len] returns the number of keys of the
    map. *)
Theorem map_and_list_agree n s :
  reachable n s →
  NoDup (key <$> entries s) ∧
  (∀ k, present k s ↔ k ∈ key <$> entries s) ∧
  (∀ k v, holds k v s ↔ Entry k v ∈ entries s) ∧
  from_option size 0 (cache (self s)) = length (entries s) ∧
  Len s = Some (Z.of_nat (from_option size 0 (cache (self s))), s).
Proof.
  intros (Hwf & _)%reachable_inv. split_and!.
  - by apply wf_keys.
  - intros k. by apply present_keys.
  - intros k v. by apply holds_iff_entry.
  - by apply map_size.
  - rewrite map_size by done. by apply Len_run.
Qed.

(** X2.  The cache is a list of entries in recency order: each public
    operation returns, whatever [MaxEntries] is, and changes the entries as
    [model] says, which knows of no pointer, map or heap; the callback is
    called for the entries [model] lists as gone, and for no other; and
    [Get] returns the value of the entry of its key, or nil and false. *)
Theorem cache_refines_list s o :
  wf s → allowed o s →
  ∃ s' evs,
    exec o s = Some ((), s') ∧ wf s' ∧
    entries s' = (model (MaxEntries (self s)) o (entries s)).1 ∧
    trace s' = trace s ++ evs ∧
    evs ≡ₚ (model (MaxEntries (self s)) o (entries s)).2
             ≫= fired (OnEvicted (self s)) ∧
    ∀ k, ∃ s1, Get k s = Some (answer k (entries s), s1).
Proof.
  intros Hwf Hok.
  destruct (exec_model s o Hwf Hok) as (s' & evs & ? & ? & _ & ? & ? & ?).
  exists s', evs. split_and!; [done..|]. intros k. unfold answer.
  destruct (decide (present k s)) as [Hk|Hk].
  - destruct (present_holds s k Hwf Hk) as [v Hv].
    destruct (Get_present s k v Hwf Hv) as (s1 & -> & _).
    exists s1. by rewrite (holds_entry_of s k v).
  - exists s. rewrite (Get_run_miss s k Hk).
    rewrite present_keys in Hk by done. by rewrite entry_of_absent.
Qed.

(** X3.  A cache whose [MaxEntries] is 0 has no bound: a history of [Add],
    [Get] and [Len] calls, however long, returns, never calls [OnEvicted]
    and loses no key. *)
Theorem unbounded_never_evicts os : ∀ s,
  wf s → MaxEntries (self s) = 0%Z → Forall keeps os →
  ∃ s', execs os s = Some s' ∧ wf s' ∧ trace s' = trace s ∧
        ∀ k, present k s → present k s'.
Proof.
  induction os as [|o os IH]; intros s Hwf Hn Hos.
  { by exists s. }
  apply Forall_cons in Hos as [Ho Hos].
  assert (allowed o s) as Hok by by destruct o.
  destruct (exec_model s o Hwf Hok)
    as (s1 & evs & Hex & Hwf1 & [Hn1 _] & He & Ht & Hevs).
  rewrite Hn in He, Hevs. destruct (model_keeps o (entries s) Ho) as [Hgone Hk].
  rewrite Hgone in Hevs. apply Permutation_nil_r in Hevs as ->.
  rewrite app_nil_r in Ht.
  destruct (IH s1) as (s' & Hexs & Hwf' & Ht' & Hk'); [done|congruence|done|].
  exists s'. simpl. rewrite Hex. split_and!; [done|done|congruence|].
  intros k Hpres. apply Hk'. rewrite present_keys, He by done.
  apply Hk. by rewrite <- present_keys.
Qed.

(** X4.  A cache whose [MaxEntries] is negative never holds an entry:
    every [Add] puts the entry in and at once evicts it, calling
    [OnEvicted] with the key and value just added, and a [Get] of the key
    finds nothing. *)
Theorem negative_MaxEntries_holds_nothing n s :
  reachable n s → (n < 0)%Z →
  entries s = [] ∧
  ∀ k v, ∃ s',
    Add k v s = Some ((), s') ∧ entries s' = [] ∧
    trace s' = trace s ++ fired (OnEvicted (self s)) (Entry k v) ∧
    Get k s' = Some ((nil_value, false), s').
Proof.
  intros Hs Hneg.
  assert (entries s = []) as He.
  { induction Hs as [f|f|s o s' Hs IH Hok Hex|s f Hs IH]; [done|done| |].
    - destruct (reachable_inv n s Hs) as (Hwf & Hn & _).
      destruct (exec_model s o Hwf Hok) as (s1 & evs & Hex1 & _ & _ & He & _).
      rewrite Hex in Hex1. injection Hex1 as <-. rewrite He, IH, Hn.
      destruct o as [k v| | | | |]; try done. cbn [model].
      rewrite decide_False by by intros ?%elem_of_nil.
      rewrite decide_True by (simpl; lia). done.
    - unfold entries in *. simpl. done. }
  split; [done|]. intros k v.
  destruct (reachable_inv n s Hs) as (Hwf & Hn & _).
  assert (¬ present k s) as Hk.
  { rewrite present_keys, He by done. by intros ?%elem_of_nil. }
  destruct (Add_absent_evicts s k v Hwf Hk)
    as (s' & front & kv & Hadd & _ & Hfront & He' & Ht & _ & Hgone & _).
  { lia. }
  { rewrite He. simpl. lia. }
  rewrite He in Hfront. destruct front as [|x front]; simpl in Hfront.
  2:{ injection Hfront as _ Hfront. by destruct front. }
  injection Hfront as <-. exists s'. split_and!; [done..|].
  by apply Get_run_miss.
Qed.

(** X5.  With a callback configured, no key leaves the cache unreported:
    after any operation, the keys in the cache together with the keys the
    callback was called with are the keys that were in the cache together
    with the key the operation added, each as often. *)
Theorem departures_are_reported s o f :
  wf s → allowed o s → OnEvicted (self s) = Some f →
  ∃ s' evs,
    exec o s = Some ((), s') ∧ trace s' = trace s ++ evs ∧
    (key <$> entries s') ++ (ev_key <$> evs)
    ≡ₚ added o (entries s) ++ (key <$> entries s).
Proof.
  intros Hwf Hok Hf.
  destruct (exec_model s o Hwf Hok) as (s' & evs & Hex & _ & _ & He & Ht & Hevs).
  exists s', evs. split_and!; [done..|].
  rewrite Hevs, Hf, bind_fired_Some, <- list_fmap_compose, He.
  apply model_conserves. by apply wf_keys.
Qed.

(** X6.  Calling [RemoveOldest] as often as the cache has entries empties
    it, and the callback receives the entries from the least to the most
    recently used. *)
Theorem RemoveOldest_drains s :
  wf s →
  ∃ s', execs (replicate (length (entries s)) OpRemoveOldest) s = Some s' ∧
        wf s' ∧ entries s' = [] ∧
        trace s' = trace s ++ (reverse (entries s)
                                 ≫= fired (OnEvicted (self s))).
Proof.
  remember (entries s) as es eqn:He. revert s He.
  induction es as [|kv es IH] using rev_ind; intros s He Hwf.
  { exists s. simpl. by rewrite app_nil_r. }
  destruct (RemoveOldest_back s es kv Hwf)
    as (s1 & Hex & Hwf1 & He1 & Ht1 & [_ Hf] & _); [done|].
  destruct (IH s1) as (s' & Hexs & Hwf' & He' & Ht'); [done..|].
  exists s'. rewrite length_app, Nat.add_comm. simpl. rewrite Hex.
  split_and!; [done..|].
  rewrite Ht', Ht1, Hf, reverse_snoc, <- app_assoc. done.
Qed.

(** X7.  [Add] of a new key that fits, followed by [Remove] of this key,
    leaves the entries, their order and the keys of the map as they were;
    the callback is called once, with the key and value that came and
    went. *)
Theorem Add_then_Remove_restores s k v :
  wf s → ¬ present k s →
  ¬ (MaxEntries (self s) ≠ 0 ∧
     Z.of_nat (S (length (entries s))) > MaxEntries (self s))%Z →
  ∃ s1 s2,
    Add k v s = Some ((), s1) ∧ Remove k s1 = Some ((), s2) ∧
    entries s2 = entries s ∧
    (∀ k', present k' s2 ↔ present k' s) ∧
    trace s2 = trace s ++ fired (OnEvicted (self s)) (Entry k v).
Proof.
  intros Hwf Hk Hfit.
  destruct (Add_absent_fits s k v Hwf Hk Hfit)
    as (s1 & Hadd & Hwf1 & Hv & He1 & Ht1 & [_ Hf1]).
  destruct (Remove_holds s1 k v Hwf1 Hv)
    as (s2 & Hrem & Hwf2 & _ & He2 & _ & Ht2 & _).
  assert (entries s2 = entries s) as He.
  { rewrite He2, He1, filter_cons_False by naive_solver.
    apply filter_key_ne_absent. by rewrite <- present_keys. }
  exists s1, s2. split_and!; [done..| |congruence].
  intros k'. by rewrite !present_keys, He.
Qed.

(** X8.  [Get] reads: it returns, calls no callback, and leaves the cache
    with the entries it had, in another order at most; a second [Get] of
    the same key returns what the first returned. *)
Theorem Get_only_reorders s k :
  wf s →
  ∃ r s1 s2,
    Get k s = Some (r, s1) ∧ wf s1 ∧ entries s1 ≡ₚ entries s ∧
    trace s1 = trace s ∧ Get k s1 = Some (r, s2).
Proof.
  intros Hwf. destruct (decide (present k s)) as [Hk|Hk].
  - destruct (present_holds s k Hwf Hk) as [v Hv].
    destruct (Get_present s k v Hwf Hv)
      as (s1 & Hget & Hwf1 & He1 & _ & Ht & Hc & Hh & _).
    assert (holds k v s1) as Hv1.
    { destruct Hv as (e & ? & ?). exists e. by rewrite Hc, Hh. }
    destruct (Get_present s1 k v Hwf1 Hv1) as (s2 & Hget2 & _).
    exists (v, true), s1, s2. split_and!; [done..| |done|done].
    rewrite He1. apply (touch_perm _ (Entry k v)); [by apply wf_keys|].
    by apply holds_entry.
  - exists (nil_value, false), s, s. by rewrite (Get_run_miss s k Hk).
Qed.

(** X9.  One call of [Add] evicts one entry at most, and calls the
    callback once at most: the capacity test is an [if], not a loop.  So a
    cache that holds more entries than [MaxEntries], as it can when the
    field was lowered after the cache was filled, holds more than
    [MaxEntries] after [Add] too. *)
Theorem Add_evicts_at_most_one s k v :
  wf s →
  ∃ s' evs,
    Add k v s = Some ((), s') ∧ trace s' = trace s ++ evs ∧
    length evs ≤ 1 ∧
    length (entries s) ≤ length (entries s') ∧
    length (entries s') ≤ S (length (entries s)) ∧
    ((Z.of_nat (length (entries s)) > MaxEntries (self s))%Z →
     (Z.of_nat (length (entries s')) > MaxEntries (self s'))%Z).
Proof.
  intros Hwf.
  destruct (exec_model s (OpAdd k v) Hwf I)
    as (s' & evs & Hex & _ & [Hn _] & He & Ht & Hevs).
  destruct (model_Add_size (MaxEntries (self s)) k v (entries s))
    as (Hlo & Hhi & Hgone); [by apply wf_keys|].
  exists s', evs. rewrite He, Hn. split_and!; [done..| |done|done|lia].
  rewrite Hevs. etrans; [apply length_bind_fired|done].
Qed.

End Cache.

Arguments entry : clear implicits.
Arguments Cache _ {_ _} _.
Arguments state _ {_ _} _ _.
Arguments event : clear implicits.
Arguments op : clear implicits.

(** ** Scenarios on concrete keys and values *)

(** What an [interface{}] holds in the scenarios: nil, an integer or a
    string.  Keys are strings, and so are the names of callbacks. *)
Inductive iface := Nil | Int (z : Z) | Str (s : string).

#[global] Instance iface_inhabited : Inhabited iface := populate Nil.

(** The cache [New(n)] with [OnEvicted] set to the function [onEvicted],
    after the calls [os]. *)
Definition scenario (n : Z) (os : list (op string iface))
    : option (state string iface string) :=
  execs os (New n (Some "onEvicted")).

Definition after (n : Z) (os : list (op string iface))
    : state string iface string :=
  default (New n (Some "onEvicted")) (scenario n os).

(** Two entries, no bound: ["b"] in front of ["a"]. *)
Definition cache_ab : state string iface string :=
  after 0 [OpAdd "a" (Int 1); OpAdd "b" (Int 2)].

(** Two entries in a cache for two: full. *)
Definition cache_full : state string iface string :=
  after 2 [OpAdd "a" (Int 1); OpAdd "b" (Int 2)].

(** [Clear] visiting the map of [s] from its last key to its first. *)
Definition backwards (s : state string iface string)
    : list (string * ptr) :=
  reverse (from_option map_to_list [] (cache (self s))).

Lemma after_reachable n os :
  Forall (λ o, ∀ s0 : state string iface string, allowed o s0) os →
  is_Some (scenario n os) →
  reachable n (after n os).
Proof.
  intros Hos [s Hs]. apply (execs_reachable n os (New n (Some "onEvicted")));
    [apply reach_New|done|].
  unfold after. by rewrite Hs.
Qed.

Lemma after_wf n os :
  Forall (λ o, ∀ s0 : state string iface string, allowed o s0) os →
  is_Some (scenario n os) →
  wf (after n os).
Proof. intros. by apply (reachable_inv n), after_reachable. Qed.

Ltac scenario_wf :=
  apply after_wf; [repeat (constructor; [by intros|]); constructor
                  |by vm_compute; eexists].

(** C1: the claim fails as stated.  In a cache that holds [("a", 1)] and has
    a callback, [Remove("a")] calls the callback with [("a", 1)]. *)
Lemma Remove_calls_OnEvicted :
  ∃ s s',
    scenario 0 [OpAdd "a" (Int 1)] = Some s ∧ present "a" s ∧
    Remove "a" s = Some ((), s') ∧
    trace s = [] ∧ trace s' = [Evicted "onEvicted" "a" (Int 1)].
Proof.
  exists (after 0 [OpAdd "a" (Int 1)]). eexists.
  split_and!; [by vm_compute|by vm_compute; eexists|by vm_compute|done..].
Qed.

Lemma backwards_ranges s : ranges (backwards s) s.
Proof. apply reverse_Permutation. Qed.

(** C1, amended, on a cache of two entries with a callback. *)
Lemma Remove_purges_and_notifies_witness :
  ∃ s' v,
    Remove "a" cache_ab = Some ((), s') ∧ wf s' ∧
    Entry "a" v ∈ entries cache_ab ∧
    cache (self s') = delete "a" <$> cache (self cache_ab) ∧
    ¬ present "a" s' ∧
    entries s' = filter (λ kv, key kv ≠ "a") (entries cache_ab) ∧
    S (length (entries s')) = length (entries cache_ab) ∧
    trace s'
    = trace cache_ab ++ fired (OnEvicted (self cache_ab)) (Entry "a" v).
Proof.
  apply (Remove_purges_and_notifies cache_ab "a").
  - scenario_wf.
  - vm_compute. by eexists.
Defined.

(** The cache of two entries, after the program has set [MaxEntries]
    to 1: it holds one entry too many. *)
Definition cache_over : state string iface string :=
  State (mkCache 1 (OnEvicted (self cache_ab)) (ll (self cache_ab))
                 (cache (self cache_ab)))
        (heap cache_ab) (trace cache_ab).

Lemma cache_over_wf : wf cache_over.
Proof.
  assert (wf cache_ab) as Hwf by scenario_wf. exact Hwf.
Qed.



(** C3.  [Add] of a new key that takes the size over a [MaxEntries] other
    than zero evicts the entry at the back of the recency order and calls
    [OnEvicted], when configured, once, with the key and value of that
    entry; [Add] and [Get] of a key that is present move its entry to the
    front, [Add] of a new key puts it in front; and with [MaxEntries = 2],
    [Add(a,1)], [Add(b,2)], [Add(c,3)] evicts [a] with the one call
    [OnEvicted(a,1)], after which [Get(b)] and [Add(d,4)] evict [c]. *)
Theorem Add_evicts_least_recently_used :
  (∀ (K : Type) `(Countable K) (V : Type) `(Inhabited V) (F : Type)
     (s : state K V F) (k : K) (v : V),
     wf s → ¬ present k s → MaxEntries (self s) ≠ 0%Z →
     (Z.of_nat (S (length (entries s))) > MaxEntries (self s))%Z →
     ∃ s' front kv,
       Add k v s = Some ((), s') ∧
       Entry k v :: entries s = front ++ [kv] ∧ entries s' = front ∧
       ¬ present (key kv) s' ∧
       trace s' = trace s ++ fired (OnEvicted (self s)) kv) ∧
  (∀ (K : Type) `(Countable K) (V : Type) `(Inhabited V) (F : Type)
     (s : state K V F) (k : K) (v : V),
     wf s →
     (present k s →
      (∃ s', Add k v s = Some ((), s') ∧
         entries s' = Entry k v :: filter (λ x, key x ≠ k) (entries s) ∧
         trace s' = trace s) ∧
      (∃ s' v0, Get k s = Some ((v0, true), s') ∧
         entries s' = Entry k v0 :: filter (λ x, key x ≠ k) (entries s) ∧
         trace s' = trace s)) ∧
     (¬ present k s →
      ¬ (MaxEntries (self s) ≠ 0 ∧
         Z.of_nat (S (length (entries s))) > MaxEntries (self s))%Z →
      ∃ s', Add k v s = Some ((), s') ∧
         entries s' = Entry k v :: entries s ∧ trace s' = trace s)) ∧
  (s ← scenario 2 [OpAdd "a" (Int 1); OpAdd "b" (Int 2); OpAdd "c" (Int 3)];
   Some (entries s, trace s))
  = Some ([Entry "c" (Int 3); Entry "b" (Int 2)],
          [Evicted "onEvicted" "a" (Int 1)]) ∧
  (s ← scenario 2 [OpAdd "a" (Int 1); OpAdd "b" (Int 2); OpAdd "c" (Int 3)];
   fst <$> Get "b" s)
  = Some (Int 2, true) ∧
  (s ← scenario 2 [OpAdd "a" (Int 1); OpAdd "b" (Int 2); OpAdd "c" (Int 3);
                   OpGet "b"; OpAdd "d" (Int 4)];
   Some (entries s, trace s))
  = Some ([Entry "d" (Int 4); Entry "b" (Int 2)],
          [Evicted "onEvicted" "a" (Int 1);
           Evicted "onEvicted" "c" (Int 3)]).
Proof.
  split_and!; [| |by vm_compute..].
  - intros K ? ? V ? F s k v Hwf Hk Hn Hlen.
    destruct (Add_absent_evicts s k v Hwf Hk Hn Hlen)
      as (s' & front & kv & ? & _ & ? & ? & ? & _ & ? & _).
    by exists s', front, kv.
  - intros K ? ? V ? F s k v Hwf. split.
    + intros Hk. split.
      * destruct (Add_present s k v Hwf Hk)
          as (s' & ? & _ & _ & ? & _ & ? & _).
        by exists s'.
      * destruct (present_holds s k Hwf Hk) as [v0 Hv0].
        destruct (Get_present s k v0 Hwf Hv0)
          as (s' & ? & _ & ? & _ & ? & _).
        by exists s', v0.
    + intros Hk Hfit.
      destruct (Add_absent_fits s k v Hwf Hk Hfit)
        as (s' & ? & _ & _ & ? & ? & _).
      by exists s'.
Qed.

(** The first part of C3 on a full cache and [Add] of a third key. *)
Lemma Add_evicts_least_recently_used_witness :
  ∃ s' front kv,
    Add "c" (Int 3) cache_full = Some ((), s') ∧
    Entry "c" (Int 3) :: entries cache_full = front ++ [kv] ∧
    entries s' = front ∧ ¬ present (key kv) s' ∧
    trace s' = trace cache_full ++ fired (OnEvicted (self cache_full)) kv.
Proof.
  apply (proj1 Add_evicts_least_recently_used string _ _ iface _ string
           cache_full "c" (Int 3)).
  - scenario_wf.
  - vm_compute. by intros [? [=]].
  - done.
  - vm_compute. done.
Defined.

(** C5: the claim fails as stated.  In an empty cache whose [MaxEntries]
    is negative, [Add] evicts the entry it has just inserted, and the [Get]
    that follows misses. *)
Lemma Add_then_Get_negative_MaxEntries :
  ∃ s1 s2,
    Add "a" (Int 1) (New (-1) (None : option string)) = Some ((), s1) ∧
    Get "a" s1 = Some ((Nil, false), s2).
Proof. eexists _, _. split; by vm_compute. Qed.

(** C5, amended, on a full cache and a new key. *)
Lemma Add_then_Get_witness :
  ∃ s1 s2,
    Add "c" (Int 3) cache_full = Some ((), s1) ∧
    Get "c" s1 = Some ((Int 3, true), s2).
Proof.
  apply (Add_then_Get cache_full "c" (Int 3)).
  - scenario_wf.
  - left. vm_compute. by intros [=].
Defined.

(** C7 on a cache of two entries, the map visited backwards. *)
Lemma Clear_notifies_every_entry_witness :
  ∃ s' evs,
    Clear (backwards cache_ab) cache_ab = Some ((), s') ∧
    trace s' = trace cache_ab ++ evs ∧
    evs ≡ₚ entries cache_ab ≫= fired (OnEvicted (self cache_ab)) ∧
    (∀ f, OnEvicted (self cache_ab) = Some f →
       evs ≡ₚ (λ kv, Evicted f (key kv) (value kv)) <$> entries cache_ab ∧
       Len cache_ab = Some (Z.of_nat (length evs), cache_ab)) ∧
    Len s' = Some (0%Z, s') ∧ entries s' = [].
Proof.
  apply (Clear_notifies_every_entry cache_ab (backwards cache_ab)).
  - scenario_wf.
  - apply backwards_ranges.
Defined.

(** C9 on a cache of two entries and a key it does not hold. *)
Lemma Get_absent_unchanged_witness :
  ∃ s', Get "z" cache_ab = Some ((Nil, false), s') ∧ s' = cache_ab ∧
        entries s' = entries cache_ab ∧ Len s' = Len cache_ab ∧
        trace s' = trace cache_ab.
Proof.
  apply (Get_absent_unchanged (V_nil := iface_inhabited) cache_ab "z").
  vm_compute. by intros [? [=]].
Defined.

(** C10 on a full cache with a callback. *)
Lemma Clear_keeps_configuration_witness :
  ∃ s', Clear (backwards cache_full) cache_full = Some ((), s') ∧
    MaxEntries (self s') = MaxEntries (self cache_full) ∧
    OnEvicted (self s') = OnEvicted (self cache_full) ∧
    ll (self s') = None ∧ cache (self s') = None ∧
    heap s' = heap cache_full.
Proof.
  apply (Clear_keeps_configuration cache_full (backwards cache_full)).
  - scenario_wf.
  - apply backwards_ranges.
Defined.

(** *** The further properties, on the scenarios *)

(** A cache made with [New(-1)], after one [Add]. *)
Definition cache_negative : state string iface string :=
  after (-1) [OpAdd "a" (Int 1)].

(** X1 on the full cache of two entries. *)
Lemma map_and_list_agree_witness :
  NoDup (key <$> entries cache_full) ∧
  (∀ k, present k cache_full ↔ k ∈ key <$> entries cache_full) ∧
  (∀ k v, holds k v cache_full ↔ Entry k v ∈ entries cache_full) ∧
  from_option size 0 (cache (self cache_full))
  = length (entries cache_full) ∧
  Len cache_full
  = Some (Z.of_nat (from_option size 0 (cache (self cache_full))),
          cache_full).
Proof.
  apply (map_and_list_agree 2 cache_full).
  apply after_reachable;
    [repeat (constructor; [by intros|]); constructor
    |by vm_compute; eexists].
Defined.

(** X2 on the full cache and [Add] of a third key. *)
Lemma cache_refines_list_witness :
  ∃ s' evs,
    exec (OpAdd "c" (Int 3)) cache_full = Some ((), s') ∧ wf s' ∧
    entries s'
    = (model (MaxEntries (self cache_full)) (OpAdd "c" (Int 3))
             (entries cache_full)).1 ∧
    trace s' = trace cache_full ++ evs ∧
    evs ≡ₚ (model (MaxEntries (self cache_full)) (OpAdd "c" (Int 3))
                  (entries cache_full)).2
             ≫= fired (OnEvicted (self cache_full)) ∧
    ∀ k, ∃ s1, Get k cache_full = Some (answer k (entries cache_full), s1).
Proof.
  apply (cache_refines_list cache_full (OpAdd "c" (Int 3))).
  - scenario_wf.
  - exact I.
Defined.

(** X3 on the cache without bound, for a history of three calls. *)
Lemma unbounded_never_evicts_witness :
  ∃ s',
    execs [OpAdd "c" (Int 3); OpGet "a"; OpLen] cache_ab = Some s' ∧
    wf s' ∧ trace s' = trace cache_ab ∧
    ∀ k, present k cache_ab → present k s'.
Proof.
  apply (unbounded_never_evicts [OpAdd "c" (Int 3); OpGet "a"; OpLen]
                                cache_ab).
  - scenario_wf.
  - reflexivity.
  - repeat constructor.
Defined.

(** X4 on a cache made with [New(-1)]. *)
Lemma negative_MaxEntries_holds_nothing_witness :
  entries cache_negative = [] ∧
  ∀ k v, ∃ s',
    Add k v cache_negative = Some ((), s') ∧ entries s' = [] ∧
    trace s'
    = trace cache_negative
      ++ fired (OnEvicted (self cache_negative)) (Entry k v) ∧
    Get k s' = Some ((nil_value, false), s').
Proof.
  apply (negative_MaxEntries_holds_nothing (-1) cache_negative).
  - apply after_reachable;
      [repeat (constructor; [by intros|]); constructor
      |by vm_compute; eexists].
  - lia.
Defined.

(** X5 on the full cache and [Add] of a third key. *)
Lemma departures_are_reported_witness :
  ∃ s' evs,
    exec (OpAdd "c" (Int 3)) cache_full = Some ((), s') ∧
    trace s' = trace cache_full ++ evs ∧
    (key <$> entries s') ++ (ev_key <$> evs)
    ≡ₚ added (OpAdd "c" (Int 3)) (entries cache_full)
       ++ (key <$> entries cache_full).
Proof.
  apply (departures_are_reported cache_full (OpAdd "c" (Int 3))
                                 "onEvicted").
  - scenario_wf.
  - exact I.
  - reflexivity.
Defined.

(** X6 on the cache of two entries. *)
Lemma RemoveOldest_drains_witness :
  ∃ s',
    execs (replicate (length (entries cache_ab)) OpRemoveOldest) cache_ab
    = Some s' ∧
    wf s' ∧ entries s' = [] ∧
    trace s'
    = trace cache_ab ++ (reverse (entries cache_ab)
                           ≫= fired (OnEvicted (self cache_ab))).
Proof.
  apply (RemoveOldest_drains cache_ab). scenario_wf.
Defined.

(** X7 on the cache without bound and a third key. *)
Lemma Add_then_Remove_restores_witness :
  ∃ s1 s2,
    Add "c" (Int 3) cache_ab = Some ((), s1) ∧
    Remove "c" s1 = Some ((), s2) ∧
    entries s2 = entries cache_ab ∧
    (∀ k', present k' s2 ↔ present k' cache_ab) ∧
    trace s2
    = trace cache_ab
      ++ fired (OnEvicted (self cache_ab)) (Entry "c" (Int 3)).
Proof.
  apply (Add_then_Remove_restores cache_ab "c" (Int 3)).
  - scenario_wf.
  - vm_compute. by intros [? [=]].
  - intros [Hn _]. by apply Hn.
Defined.

(** X8 on the cache of two entries and its older key. *)
Lemma Get_only_reorders_witness :
  ∃ r s1 s2,
    Get "a" cache_ab = Some (r, s1) ∧ wf s1 ∧
    entries s1 ≡ₚ entries cache_ab ∧
    trace s1 = trace cache_ab ∧ Get "a" s1 = Some (r, s2).
Proof.
  apply (Get_only_reorders cache_ab "a"). scenario_wf.
Defined.

(** X9 on the cache that is over its bound. *)
Lemma Add_evicts_at_most_one_witness :
  ∃ s' evs,
    Add "c" (Int 3) cache_over = Some ((), s') ∧
    trace s' = trace cache_over ++ evs ∧
    length evs ≤ 1 ∧
    length (entries cache_over) ≤ length (entries s') ∧
    length (entries s') ≤ S (length (entries cache_over)) ∧
    ((Z.of_nat (length (entries cache_over))
      > MaxEntries (self cache_over))%Z →
     (Z.of_nat (length (entries s')) > MaxEntries (self s'))%Z).
Proof.
  apply (Add_evicts_at_most_one cache_over "c" (Int 3)).
  apply cache_over_wf.
Defined.

(** The cache that is over its bound stays over it: after [Add] it holds
    two entries still, with [MaxEntries] at 1. *)
Example cache_over_stays_over :
  ('(_, s') ← Add "c" (Int 3) cache_over;
   Some (key <$> entries s', MaxEntries (self s'), trace s'))
  = Some (["c"; "b"], 1%Z, [Evicted "onEvicted" "a" (Int 1)]).
Proof. by vm_compute. Qed.

End lru.

(** ** Package singleflight *)

Module singleflight.

Section Group.

(** [V] stands for the values of [interface{}], [E] for those of [error],
    each with nil as its inhabitant.  [W] is whatever the functions passed
    to [Do] act on: a [func() (interface{}, error)] is a function on it,
    taken to return, and to run in one step.

    Goroutines interleave statement by statement.  The program leaves no
    other order to see: [g.m] is read and written under the mutex only, and
    the fields of a call record are written before [Done] and read after
    [Wait]. *)
Context {V : Type} {V_nil : Inhabited V}.
Context {E : Type} {E_nil : Inhabited E}.
Context {W : Type}.

Definition func : Type := W → (V * E) * W.

(** [type call struct]; [wg] is the counter of the [sync.WaitGroup]. *)
Record call := mkCall { wg : Z; val : V; err : E }.

(** [type Group struct]; [mu] tells whether the mutex is locked. *)
Record Group := mkGroup { mu : bool; m : option (gmap string ptr) }.

(** What the goroutines share: the group [g], the call records by address,
    the world the functions act on, and the executions of a function so
    far, oldest first, each with the key it ran for and what it returned. *)
Record shared := Shared {
  g : Group;
  heap : gmap ptr call;
  world : W;
  ran : list (string * (V * E));
}.

(** Where a call of [Do] stands: the statement it executes next (by its
    line in the source), with its local variable [c] once it is assigned,
    or the pair it has returned. *)
Inductive pc :=
| Lock1                (* 48: g.mu.Lock() *)
| Init                 (* 49: if g.m == nil { g.m = make(...) } *)
| Lookup               (* 55: if c, ok := g.m[key]; ok *)
| HitUnlock (c : ptr)  (* 58: g.mu.Unlock() *)
| HitWait (c : ptr)    (* 59: c.wg.Wait() *)
| HitReturn (c : ptr)  (* 60: return c.val, c.err *)
| New                  (* 63: c := new(call) *)
| WgAdd (c : ptr)      (* 64: c.wg.Add(1) *)
| Register (c : ptr)   (* 65: g.m[key] = c *)
| Unlock2 (c : ptr)    (* 66: g.mu.Unlock() *)
| CallFn (c : ptr)     (* 68: c.val, c.err = fn() *)
| WgDone (c : ptr)     (* 69: c.wg.Done() *)
| Lock3 (c : ptr)      (* 71: g.mu.Lock() *)
| Delete (c : ptr)     (* 72: delete(g.m, key) *)
| Unlock3 (c : ptr)    (* 73: g.mu.Unlock() *)
| Return (c : ptr)     (* 75: return c.val, c.err *)
| Returned (r : V * E).

(** A goroutine inside [Do(key, fn)]. *)
Record goroutine := Goroutine { key : string; fn : func; pos : pc }.

Definition goto (l : pc) (t : goroutine) : goroutine :=
  Goroutine (key t) (fn t) l.

Definition set_mu (b : bool) (s : shared) : shared :=
  Shared (mkGroup b (m (g s))) (heap s) (world s) (ran s).
Definition set_m (mp : option (gmap string ptr)) (s : shared) : shared :=
  Shared (mkGroup (mu (g s)) mp) (heap s) (world s) (ran s).
Definition set_heap (h : gmap ptr call) (s : shared) : shared :=
  Shared (g s) h (world s) (ran s).

(** What one statement does: it moves on, waits (a locked mutex, a wait
    group that is not at zero), has nothing left to do, or panics. *)
Inductive outcome := Step (t : goroutine) (s : shared) | Blocked | Halted | Panic.

(** [sync.Mutex]. *)
Definition lock (l : pc) (t : goroutine) (s : shared) : outcome :=
  if mu (g s) then Blocked else Step (goto l t) (set_mu true s).
Definition unlock (l : pc) (t : goroutine) (s : shared) : outcome :=
  if mu (g s) then Step (goto l t) (set_mu false s) else Panic.

(** The field accesses through [c]; a dangling [c] panics. *)
Definition with_call (c : ptr) (s : shared) (k : call → outcome) : outcome :=
  match heap s !! c with
  | Some cl => k cl
  | None => Panic
  end.

(** One statement of [func (g *Group) Do(key string, fn func() ...)]. *)
Definition advance (t : goroutine) (s : shared) : outcome :=
  match pos t with
  | Lock1 => lock Init t s
  | Init =>
      Step (goto Lookup t)
           (if m (g s) is None then set_m (Some ∅) s else s)
  | Lookup =>
      match m (g s) ≫= (.!! key t) with
      | Some c => Step (goto (HitUnlock c) t) s
      | None => Step (goto New t) s
      end
  | HitUnlock c => unlock (HitWait c) t s
  | HitWait c =>
      with_call c s (λ cl,
        if decide (wg cl = 0) then Step (goto (HitReturn c) t) s
        else Blocked)
  | HitReturn c =>
      with_call c s (λ cl, Step (goto (Returned (val cl, err cl)) t) s)
  | New =>
      let c := fresh (dom (heap s)) in
      Step (goto (WgAdd c) t)
           (set_heap (<[c := mkCall 0 inhabitant inhabitant]> (heap s)) s)
  | WgAdd c =>
      with_call c s (λ cl,
        Step (goto (Register c) t)
             (set_heap (<[c := mkCall (wg cl + 1) (val cl) (err cl)]>
                          (heap s)) s))
  | Register c =>
      match m (g s) with
      | Some mp => Step (goto (Unlock2 c) t)
                        (set_m (Some (<[key t := c]> mp)) s)
      | None => Panic
      end
  | Unlock2 c => unlock (CallFn c) t s
  | CallFn c =>
      with_call c s (λ cl,
        let r := fn t (world s) in
        Step (goto (WgDone c) t)
             (Shared (g s)
                     (<[c := mkCall (wg cl) r.1.1 r.1.2]> (heap s))
                     r.2
                     (ran s ++ [(key t, r.1)])))
  | WgDone c =>
      with_call c s (λ cl,
        if decide (wg cl - 1 < 0) then Panic
        else Step (goto (Lock3 c) t)
                  (set_heap (<[c := mkCall (wg cl - 1) (val cl) (err cl)]>
                               (heap s)) s))
  | Lock3 c => lock (Delete c) t s
  | Delete c =>
      Step (goto (Unlock3 c) t) (set_m (delete (key t) <$> m (g s)) s)
  | Unlock3 c => unlock (Return c) t s
  | Return c =>
      with_call c s (λ cl, Step (goto (Returned (val cl, err cl)) t) s)
  | Returned _ => Halted
  end%Z.

(** *** One call on its own *)

(** The statements of one goroutine, one after the other, while no other
    goroutine runs; [None] when it waits or panics, or is not through
    after [fuel] statements. *)
Fixpoint run (fuel : nat) (t : goroutine) (s : shared)
    : option ((V * E) * shared) :=
  match pos t, fuel with
  | Returned r, _ => Some (r, s)
  | _, O => None
  | _, S fuel =>
      match advance t s with
      | Step t' s' => run fuel t' s'
      | _ => None
      end
  end.

(** [g.Do(key, fn)], called while no other call is in progress.  The
    longer path through [Do] has thirteen statements. *)
Definition Do (k : string) (f : func) (s : shared)
    : option ((V * E) * shared) :=
  run 13 (Goroutine k f Lock1) s.

(** The mutex is free and the group has no call record for [k]. *)
Definition idle (k : string) (s : shared) : Prop :=
  mu (g s) = false ∧ m (g s) ≫= (.!! k) = None.

(** *** Goroutines side by side *)

Record pool := Pool { threads : list goroutine; sh : shared }.

(** Goroutine [i] executes its next statement. *)
Definition pool_step (i : nat) (p : pool) : option pool :=
  t ← threads p !! i;
  match advance t (sh p) with
  | Step t' s' => Some (Pool (<[i := t']> (threads p)) s')
  | _ => None
  end.

(** The goroutine has looked its key up in the map (line 55). *)
Definition arrived (t : goroutine) : bool :=
  match pos t with
  | Lock1 | Init | Lookup => false
  | _ => true
  end.

(** The goroutine is about to remove the call record (line 72). *)
Definition removing (t : goroutine) : bool :=
  match pos t with
  | Delete _ => true
  | _ => false
  end.

Definition returned (t : goroutine) : Prop :=
  match pos t with
  | Returned _ => True
  | _ => False
  end.

(** The runs of a burst: the goroutines interleave in any way, as long
    as every call has looked the key up by the time a call record is
    removed. *)
Inductive burst : pool → pool → Prop :=
| burst_done p : burst p p
| burst_step p p' p'' i t :
    threads p !! i = Some t →
    (removing t = true → Forall (λ t', arrived t' = true) (threads p)) →
    pool_step i p = Some p' →
    burst p' p'' →
    burst p p''.

(** The same, as a computation along a schedule: the list of the
    goroutines that move, in order. *)
Fixpoint replay (sched : list nat) (p : pool) : option pool :=
  match sched with
  | [] => Some p
  | i :: sched =>
      t ← threads p !! i;
      if removing t && negb (forallb arrived (threads p)) then None
      else pool_step i p ≫= replay sched
  end.

(** [N] calls [Do(k, f)], one for each [f] of [fs], about to start on the
    shared state [s]. *)
Definition calls (k : string) (fs : list func) (s : shared) : pool :=
  Pool ((λ f, Goroutine k f Lock1) <$> fs) s.

(** *** What the proofs speak of *)

(** What [Do] leaves behind when it starts on an idle group: the map as it
    was (made, if it was nil), the record of the call with the result in it
    and its wait group back at zero, the world as the function left it. *)
Definition done (k : string) (f : func) (s : shared) : shared :=
  let c := fresh (dom (heap s)) in
  let r := f (world s) in
  Shared (mkGroup false (Some (default ∅ (m (g s)))))
         (<[c := mkCall 0 r.1.1 r.1.2]> (heap s))
         r.2
         (ran s ++ [(k, r.1)]).

(** The goroutine is between a [Lock] and the [Unlock] after it. *)
Definition holds_mu (t : goroutine) : bool :=
  match pos t with
  | Init | Lookup | HitUnlock _ | New | WgAdd _ | Register _ | Unlock2 _
  | Delete _ | Unlock3 _ => true
  | _ => false
  end.

Definition holders (ts : list goroutine) : nat :=
  sum_list_with (λ t, Nat.b2n (holds_mu t)) ts.

(** Mutual exclusion: the mutex is locked when one goroutine is between
    [Lock] and [Unlock], free when none is, and never are there two. *)
Definition mutex_ok (p : pool) : Prop :=
  holders (threads p) = Nat.b2n (mu (g (sh p))).

Definition res (cl : call) : V * E := (val cl, err cl).

(** The goroutine that found the key absent leads the burst: [c] is its
    call record, [cl] what the record holds.  This is what holds of the
    shared state while the leader, who got [f], is at [l]; [w0] is the world
    the burst started in and [r0] the executions before it. *)
Definition lead_ok (k0 : string) (w0 : W) (r0 : list (string * (V * E)))
    (f : func) (c : ptr) (cl : call) (s : shared) (l : pc) : Prop :=
  match l with
  | WgAdd c' =>
      c' = c ∧ m (g s) ≫= (.!! k0) = None ∧ ran s = r0 ∧ world s = w0 ∧
      wg cl = 0%Z
  | Register c' =>
      c' = c ∧ m (g s) ≫= (.!! k0) = None ∧ ran s = r0 ∧ world s = w0 ∧
      wg cl = 1%Z
  | Unlock2 c' | CallFn c' =>
      c' = c ∧ m (g s) ≫= (.!! k0) = Some c ∧ ran s = r0 ∧ world s = w0 ∧
      wg cl = 1%Z
  | WgDone c' =>
      c' = c ∧ m (g s) ≫= (.!! k0) = Some c ∧
      ran s = r0 ++ [(k0, (f w0).1)] ∧ world s = (f w0).2 ∧
      res cl = (f w0).1 ∧
      wg cl = 1%Z
  | Lock3 c' | Delete c' =>
      c' = c ∧ m (g s) ≫= (.!! k0) = Some c ∧
      ran s = r0 ++ [(k0, (f w0).1)] ∧ world s = (f w0).2 ∧
      res cl = (f w0).1 ∧
      wg cl = 0%Z
  | Unlock3 c' | Return c' =>
      c' = c ∧ m (g s) ≫= (.!! k0) = None ∧
      ran s = r0 ++ [(k0, (f w0).1)] ∧ world s = (f w0).2 ∧
      res cl = (f w0).1 ∧
      wg cl = 0%Z
  | Returned r =>
      r = (f w0).1 ∧ m (g s) ≫= (.!! k0) = None ∧
      ran s = r0 ++ [(k0, (f w0).1)] ∧ world s = (f w0).2 ∧
      res cl = (f w0).1 ∧
      wg cl = 0%Z
  | _ => False
  end.

(** Where the other goroutines can be while the leader is at [l]: at the
    door while the leader registers the record; up to the wait while the
    function runs; anywhere on the waiting path once the wait group is at
    zero; past the lookup once the record is removed. *)
Definition other_ok (c : ptr) (r : V * E) (l : pc) (q : pc) : Prop :=
  match l with
  | WgAdd _ | Register _ | Unlock2 _ => q = Lock1
  | CallFn _ | WgDone _ =>
      q = Lock1 ∨ q = Init ∨ q = Lookup ∨ q = HitUnlock c ∨ q = HitWait c
  | Lock3 _ | Delete _ =>
      q = Lock1 ∨ q = Init ∨ q = Lookup ∨ q = HitUnlock c ∨ q = HitWait c ∨
      q = HitReturn c ∨ q = Returned r
  | Unlock3 _ | Return _ | Returned _ =>
      q = HitWait c ∨ q = HitReturn c ∨ q = Returned r
  | _ => False
  end.

(** The invariant of the bursts of calls [Do(k0, f)], [f] from [fs], that
    start in the world [w0] after the executions [r0]: either no goroutine
    has got past the lookup and the allocation, or one leads and the others
    are where [other_ok] says. *)
Definition inv (k0 : string) (w0 : W) (r0 : list (string * (V * E)))
    (fs : list func) (p : pool) : Prop :=
  Forall (λ t, key t = k0 ∧ fn t ∈ fs) (threads p) ∧
  mutex_ok p ∧
  ((m (g (sh p)) ≫= (.!! k0) = None ∧ ran (sh p) = r0 ∧ world (sh p) = w0 ∧
    Forall (λ t, pos t = Lock1 ∨ pos t = Init ∨ pos t = Lookup ∨ pos t = New)
           (threads p)) ∨
   ∃ i t c cl,
     threads p !! i = Some t ∧ heap (sh p) !! c = Some cl ∧
     lead_ok k0 w0 r0 (fn t) c cl (sh p) (pos t) ∧
     ∀ j t', j ≠ i → threads p !! j = Some t' →
       other_ok c (res cl) (pos t) (pos t')).

(** *** Any keys, any interleaving *)

(** Calls [Do(k, f)], one for each pair [(k, f)] of [cs], about to start
    on the shared state [s]. *)
Definition starts (cs : list (string * func)) (s : shared) : pool :=
  Pool ((λ c, Goroutine c.1 c.2 Lock1) <$> cs) s.

(** A run of a pool along a schedule, the list of the goroutines that
    move, in order, with no condition on it; [None] when a goroutine that
    is to move cannot. *)
Fixpoint follow (sched : list nat) (p : pool) : option pool :=
  match sched with
  | [] => Some p
  | i :: sched => pool_step i p ≫= follow sched
  end.

(** In the run along [sched], each goroutine has looked its key up
    (line 55) by the time a goroutine removes a call record (line 72). *)
Fixpoint timely (sched : list nat) (p : pool) : Prop :=
  match sched with
  | [] => True
  | i :: sched =>
      match threads p !! i, pool_step i p with
      | Some t, Some p' =>
          (removing t = true →
           Forall (λ t', arrived t' = true) (threads p)) ∧
          timely sched p'
      | _, _ => True
      end
  end.

(** A schedule for [S n] calls that are all in progress together:
    goroutine 0 goes up to the call of its function, the others arrive
    one by one and wait, goroutine 0 calls the function and goes to its
    end, and the others pick the result up. *)
Definition together (n : nat) : list nat :=
  replicate 7 0 ++ (seq 1 n ≫= replicate 4) ++
  replicate 6 0 ++ (seq 1 n ≫= replicate 2).

(** The group is at rest: the mutex is free and the map is nil or empty. *)
Definition rest (s : shared) : Prop :=
  mu (g s) = false ∧ ∀ k, m (g s) ≫= (.!! k) = None.

(** The call record a goroutine has made, the one it has found in the
    map, and the one it has in the map while the wait group is at one and
    while the key is there. *)
Definition own (l : pc) : option ptr :=
  match l with
  | WgAdd c | Register c | Unlock2 c | CallFn c | WgDone c | Lock3 c
  | Delete c | Unlock3 c | Return c => Some c
  | _ => None
  end.
Definition awaits (l : pc) : option ptr :=
  match l with
  | HitUnlock c | HitWait c | HitReturn c => Some c
  | _ => None
  end.
Definition serving (l : pc) : option ptr :=
  match l with
  | Unlock2 c | CallFn c | WgDone c => Some c
  | _ => None
  end.
Definition registered (l : pc) : option ptr :=
  match l with
  | Unlock2 c | CallFn c | WgDone c | Lock3 c | Delete c => Some c
  | _ => None
  end.

(** [r] is what the function of a call for [k] returned, in some world. *)
Definition produced (cs : list (string * func)) (k : string) (r : V * E)
    : Prop :=
  ∃ f w, (k, f) ∈ cs ∧ r = (f w).1.

(** What holds of the shared state while a goroutine is at a statement
    of the path that makes the call record. *)
Definition leader_ok (cs : list (string * func)) (s : shared)
    (t : goroutine) : Prop :=
  match pos t with
  | Lookup => is_Some (m (g s))
  | New => is_Some (m (g s)) ∧ m (g s) ≫= (.!! key t) = None
  | WgAdd c =>
      is_Some (m (g s)) ∧ m (g s) ≫= (.!! key t) = None ∧
      ∃ cl, heap s !! c = Some cl ∧ wg cl = 0%Z
  | Register c =>
      is_Some (m (g s)) ∧ m (g s) ≫= (.!! key t) = None ∧
      ∃ cl, heap s !! c = Some cl ∧ wg cl = 1%Z
  | Unlock2 c | CallFn c =>
      m (g s) ≫= (.!! key t) = Some c ∧
      ∃ cl, heap s !! c = Some cl ∧ wg cl = 1%Z
  | WgDone c =>
      m (g s) ≫= (.!! key t) = Some c ∧
      ∃ cl, heap s !! c = Some cl ∧ wg cl = 1%Z ∧
            produced cs (key t) (res cl)
  | Lock3 c | Delete c =>
      m (g s) ≫= (.!! key t) = Some c ∧
      ∃ cl, heap s !! c = Some cl ∧ wg cl = 0%Z ∧
            produced cs (key t) (res cl)
  | Unlock3 c | Return c =>
      ∃ cl, heap s !! c = Some cl ∧ wg cl = 0%Z ∧
            produced cs (key t) (res cl)
  | Returned r => produced cs (key t) r
  | _ => True
  end.

(** What holds while a goroutine is on the path that found a record [c]
    in the map: a goroutine with the same key has [c] in the map and has
    not called [Done] yet, or the wait group of [c] is back at zero, the
    result is in [c], and [c] is not a record that was just made. *)
Definition waiter_ok (cs : list (string * func)) (p : pool)
    (t : goroutine) : Prop :=
  ∀ c, awaits (pos t) = Some c →
    ∃ cl, heap (sh p) !! c = Some cl ∧
      ((pos t ≠ HitReturn c ∧
        ∃ j tj, threads p !! j = Some tj ∧ key tj = key t ∧
                serving (pos tj) = Some c) ∨
       (wg cl = 0%Z ∧ produced cs (key t) (res cl) ∧
        ∀ j tj, threads p !! j = Some tj → pos tj ≠ WgAdd c)).

(** No two goroutines have made the same record. *)
Definition records_apart (p : pool) : Prop :=
  ∀ i j ti tj c,
    threads p !! i = Some ti → threads p !! j = Some tj →
    own (pos ti) = Some c → own (pos tj) = Some c → i = j.

(** A record that is in the map under the key of a call is there for a
    goroutine with this key that is between registering and deleting
    it. *)
Definition map_ok (p : pool) : Prop :=
  ∀ k c, k ∈ key <$> threads p → m (g (sh p)) ≫= (.!! k) = Some c →
    ∃ j tj, threads p !! j = Some tj ∧ key tj = k ∧
            registered (pos tj) = Some c.

(** The invariant of the runs of the calls [cs] that start with the mutex
    free and no record in the map for any of their keys. *)
Definition safe (cs : list (string * func)) (p : pool) : Prop :=
  mutex_ok p ∧
  (λ t, (key t, fn t)) <$> threads p = cs ∧
  Forall (leader_ok cs (sh p)) (threads p) ∧
  Forall (waiter_ok cs p) (threads p) ∧
  records_apart p ∧
  map_ok p.

(** The goroutine is past the call of its function, or to return without
    one. *)
Definition past_fn (t : goroutine) : bool :=
  match pos t with
  | WgDone _ | Lock3 _ | Delete _ | Unlock3 _ | Return _ | Returned _ => true
  | _ => false
  end.

(** The number of goroutines with key [k] that are past the call. *)
Definition past_of (k : string) (t : goroutine) : nat :=
  if decide (key t = k) then Nat.b2n (past_fn t) else 0.
Definition past (k : string) (ts : list goroutine) : nat :=
  sum_list_with (past_of k) ts.

(** The executions for the key [k] among [rs]. *)
Definition runs_of (k : string) (rs : list (string * (V * E))) : nat :=
  length (filter (λ x, x.1 = k) rs).

(** The statements at which [leader_ok] speaks of the record of the key. *)
Definition reads_map (l : pc) : Prop :=
  match l with
  | New | WgAdd _ | Register _ | Unlock2 _ | CallFn _ | WgDone _ | Lock3 _
  | Delete _ => True
  | _ => False
  end.

(** The statements a goroutine has before it, at most. *)
Definition togo (l : pc) : nat :=
  match l with
  | Lock1 => 13 | Init => 12 | Lookup => 11
  | HitUnlock _ => 3 | HitWait _ => 2 | HitReturn _ => 1
  | New => 10 | WgAdd _ => 9 | Register _ => 8 | Unlock2 _ => 7
  | CallFn _ => 6 | WgDone _ => 5 | Lock3 _ => 4 | Delete _ => 3
  | Unlock3 _ => 2 | Return _ => 1
  | Returned _ => 0
  end.
Definition remaining (ts : list goroutine) : nat :=
  sum_list_with (λ t, togo (pos t)) ts.

(** ** Proofs *)

(** *** One call on its own *)

Lemma run_step fuel t s t' s' :
  advance t s = Step t' s' → run (S fuel) t s = run fuel t' s'.
Proof.
  intros Hadv. simpl. rewrite Hadv.
  destruct (pos t) eqn:Hp; try done. unfold advance in Hadv.
  by rewrite Hp in Hadv.
Qed.

Ltac advance_once :=
  erewrite run_step;
    [|unfold advance, lock, unlock, with_call; simpl;
      rewrite ?lookup_insert_eq; simpl; reflexivity].

Lemma Do_idle k f s :
  idle k s → Do k f s = Some ((f (world s)).1, done k f s).
Proof.
  destruct s as [[b mp] h w rn]. intros [Hmu Hk]. simpl in *. subst b.
  unfold Do, done. cbn [heap world ran g m mu].
  assert (default ∅ mp !! k = None) as Hk'.
  { destruct mp as [mp|]; [done|]. apply lookup_empty. }
  advance_once. advance_once.
  erewrite (run_step _ _ _ (Goroutine k f New)
              (Shared (mkGroup true (Some (default ∅ mp))) h w rn)).
  2:{ unfold advance. destruct mp as [mp|]; simpl in *; by rewrite ?Hk. }
  do 10 advance_once.
  rewrite !insert_insert_eq, delete_insert_eq, delete_id by done.
  by destruct (f w) as [[v e] w'].
Qed.

Lemma done_idle k f s : idle k s → idle k (done k f s).
Proof.
  intros [_ Hk]. split; [done|]. simpl.
  destruct (m (g s)) as [mp|]; [done|]. apply lookup_empty.
Qed.

(** *** Goroutines side by side: the invariant of a burst *)

Lemma advance_same t s t' s' :
  advance t s = Step t' s' → key t' = key t ∧ fn t' = fn t.
Proof.
  unfold advance, lock, unlock, with_call.
  destruct (pos t); repeat case_match; by intros [= <- <-].
Qed.

Lemma holders_insert ts : ∀ i t t',
  ts !! i = Some t →
  holders (<[i := t']> ts) + Nat.b2n (holds_mu t)
  = holders ts + Nat.b2n (holds_mu t').
Proof.
  induction ts as [|a ts IH]; intros [|i] t t' Hi; simplify_eq/=.
  - unfold holders. simpl. lia.
  - specialize (IH i t t' Hi). unfold holders in *. simpl. lia.
Qed.

Lemma holders_lookup ts i t :
  ts !! i = Some t → Nat.b2n (holds_mu t) ≤ holders ts.
Proof.
  revert i. induction ts as [|a ts IH]; intros [|i] Hi; simplify_eq/=.
  - unfold holders. simpl. lia.
  - specialize (IH i Hi). unfold holders in *. simpl. lia.
Qed.

(** The goroutine that holds the mutex is the only one that does. *)
Lemma holders_alone ts i t j t' :
  holders ts ≤ 1 → ts !! i = Some t → holds_mu t = true →
  j ≠ i → ts !! j = Some t' → holds_mu t' = false.
Proof.
  intros Hone Hi Ht Hne Hj.
  pose proof (holders_insert ts i t (Goroutine (key t) (fn t) Lock1) Hi)
    as Hins.
  assert (<[i := Goroutine (key t) (fn t) Lock1]> ts !! j = Some t') as Hj'
    by by rewrite list_lookup_insert_ne.
  apply holders_lookup in Hj'. rewrite Ht in Hins. simpl in Hins.
  destruct (holds_mu t'); [simpl in *; lia|done].
Qed.

Lemma advance_mutex t s t' s' :
  advance t s = Step t' s' →
  Nat.b2n (holds_mu t') + Nat.b2n (mu (g s))
  = Nat.b2n (holds_mu t) + Nat.b2n (mu (g s')).
Proof.
  unfold advance, lock, unlock, with_call, holds_mu.
  destruct (pos t); repeat case_match; intros [= <- <-]; simpl;
    by rewrite ?H; simplify_eq/=.
Qed.

Lemma mutex_step i p p' :
  mutex_ok p → pool_step i p = Some p' → mutex_ok p'.
Proof.
  unfold mutex_ok, pool_step. intros Hmu Hstep.
  destruct (threads p !! i) as [t|] eqn:Hi; [|done]. simpl in Hstep.
  destruct (advance t (sh p)) as [t' s'| | |] eqn:Hadv; [|done..].
  injection Hstep as <-. simpl.
  pose proof (holders_insert _ _ _ t' Hi).
  pose proof (advance_mutex _ _ _ _ Hadv). lia.
Qed.

Lemma lead_ok_ext k0 w0 r0 f c cl s s' l :
  m (g s') = m (g s) → ran s' = ran s → world s' = world s →
  lead_ok k0 w0 r0 f c cl s l → lead_ok k0 w0 r0 f c cl s' l.
Proof. unfold lead_ok. intros -> -> ->. done. Qed.

(** A step of a goroutine that does not lead: it stays where [other_ok]
    says and changes nothing but the mutex. *)
Lemma other_step k0 w0 r0 f c cl s l t t' s' :
  heap s !! c = Some cl → lead_ok k0 w0 r0 f c cl s l →
  (holds_mu (Goroutine k0 f l) = true → mu (g s) = true) →
  key t = k0 → other_ok c (res cl) l (pos t) →
  advance t s = Step t' s' →
  other_ok c (res cl) l (pos t') ∧
  heap s' = heap s ∧ m (g s') = m (g s) ∧ ran s' = ran s ∧
  world s' = world s.
Proof.
  intros Hc Hlead Hmu Hk Hoth Hadv.
  unfold advance, lock, unlock, with_call in Hadv.
  destruct l; simpl in Hlead, Hoth, Hmu; try done;
    destruct_and?; destruct_or?;
    repeat match goal with
    | H : ?x = c |- _ => is_var x; subst x
    | H : pos t = _ |- _ => rewrite H in Hadv |- *; clear H
    end; simpl in Hadv.
  all: rewrite ?Hmu in Hadv by done.
  all: repeat match goal with
    | H : m (g _) ≫= _ = _ |- _ => rewrite H in Hadv; clear H
    | H : heap _ !! _ = _ |- _ => rewrite H in Hadv; clear H
    | H : wg _ = _ |- _ => rewrite H in Hadv; clear H
    end; simpl in Hadv.
  all: repeat case_match; simplify_eq/=; try done; try lia.
  all: split_and!; unfold res; auto 10.
Qed.

(** A step of the leader: the shared state follows it, and the others are
    where they may be for the leader's next statement.  When the leader
    removes the record, this rests on every call having arrived and on
    the leader holding the mutex. *)
Lemma leader_step k0 w0 r0 c cl s t t' s' :
  heap s !! c = Some cl → key t = k0 →
  lead_ok k0 w0 r0 (fn t) c cl s (pos t) →
  advance t s = Step t' s' →
  ∃ cl', heap s' !! c = Some cl' ∧
    lead_ok k0 w0 r0 (fn t) c cl' s' (pos t') ∧
    ∀ t2, other_ok c (res cl) (pos t) (pos t2) →
      (removing t = true → arrived t2 = true ∧ holds_mu t2 = false) →
      other_ok c (res cl') (pos t') (pos t2).
Proof.
  intros Hc Hk Hlead Hadv.
  unfold advance, lock, unlock, with_call in Hadv.
  unfold removing, arrived, holds_mu.
  destruct (pos t) eqn:Hpos; simpl in Hlead; try done.
  - (* WgAdd *)
    destruct Hlead as (-> & Hm & Hran & Hw & Hwg). rewrite Hc in Hadv.
    injection Hadv as <- <-. eexists. simpl. rewrite lookup_insert_eq.
    split_and!; try done. simpl. lia.
  - (* Register *)
    destruct Hlead as (-> & Hm & Hran & Hw & Hwg).
    destruct (m (g s)) as [mp|]; [|done].
    injection Hadv as <- <-. exists cl. simpl. rewrite Hk, lookup_insert_eq.
    by split_and!.
  - (* Unlock2 *)
    destruct Hlead as (-> & Hm & Hran & Hw & Hwg).
    destruct (mu (g s)); [|done]. injection Hadv as <- <-. exists cl.
    simpl. split_and!; try done. intros t2 ->. auto.
  - (* CallFn *)
    destruct Hlead as (-> & Hm & Hran & Hw & Hwg). rewrite Hc in Hadv.
    injection Hadv as <- <-.
    exists (mkCall (wg cl) (fn t w0).1.1 (fn t w0).1.2). simpl.
    rewrite lookup_insert_eq, Hw, Hran, Hk. unfold res. simpl.
    by destruct (fn t w0) as [[v e] w'].
  - (* WgDone *)
    destruct Hlead as (-> & Hm & Hran & Hw & Hres & Hwg).
    rewrite Hc in Hadv. case_decide; [lia|]. injection Hadv as <- <-.
    exists (mkCall (wg cl - 1) (val cl) (err cl)). simpl.
    rewrite lookup_insert_eq. split_and!; try done.
    + simpl. lia.
    + intros t2. unfold res. simpl. tauto.
  - (* Lock3 *)
    destruct Hlead as (-> & Hm & Hran & Hw & Hres & Hwg).
    destruct (mu (g s)); [done|]. injection Hadv as <- <-. exists cl.
    by split_and!.
  - (* Delete *)
    destruct Hlead as (-> & Hm & Hran & Hw & Hres & Hwg).
    injection Hadv as <- <-. exists cl. simpl.
    split_and!; try done.
    + destruct (m (g s)) as [mp|]; [|done]. simpl.
      by rewrite Hk, lookup_delete_eq.
    + intros t2 Hoth Harr. destruct (Harr eq_refl) as [Ha Hh].
      destruct_or?; rewrite Hoth in *; simplify_eq/=; auto.
  - (* Unlock3 *)
    destruct Hlead as (-> & Hm & Hran & Hw & Hres & Hwg).
    destruct (mu (g s)); [|done]. injection Hadv as <- <-. exists cl.
    by split_and!.
  - (* Return *)
    destruct Hlead as (-> & Hm & Hran & Hw & Hres & Hwg).
    rewrite Hc in Hadv. injection Hadv as <- <-. exists cl. simpl.
    unfold res in Hres. rewrite Hres. by split_and!.
Qed.

Lemma inv_step k0 w0 r0 fs p i t p' :
  inv k0 w0 r0 fs p → threads p !! i = Some t →
  (removing t = true → Forall (λ t', arrived t' = true) (threads p)) →
  pool_step i p = Some p' → inv k0 w0 r0 fs p'.
Proof.
  intros (Hkeys & Hmu & Hph) Hi Hrem Hstep.
  pose proof (mutex_step i p p' Hmu Hstep) as Hmu'.
  unfold pool_step in Hstep. rewrite Hi in Hstep. simpl in Hstep.
  destruct (advance t (sh p)) as [t' s'| | |] eqn:Hadv; [|done..].
  injection Hstep as <-.
  destruct (advance_same _ _ _ _ Hadv) as [Hk' Hf'].
  pose proof (Forall_lookup_1 _ _ _ _ Hkeys Hi) as [Hkt Hft].
  pose proof (lookup_lt_Some _ _ _ Hi) as Hlt.
  assert (holders (threads p) ≤ 1) as Hone.
  { rewrite Hmu. by destruct (mu (g (sh p))); simpl; lia. }
  split_and!; [|done|].
  { apply Forall_insert; [done|]. by rewrite Hk', Hf'. }
  simpl. destruct Hph as [(Hm & Hran & Hw & Hall)
                         |(il & tl & c & cl & Hil & Hc & Hlead & Hoth)].
  - (* no leader yet *)
    pose proof (Forall_lookup_1 _ _ _ _ Hall Hi) as Hpos.
    unfold advance, lock in Hadv.
    destruct Hpos as [Hp|[Hp|[Hp|Hp]]]; rewrite Hp in Hadv.
    + destruct (mu (g (sh p))); [done|]. injection Hadv as <- <-.
      left. split_and!; try done. apply Forall_insert; [done|]. simpl. auto.
    + injection Hadv as <- <-. left. split_and!.
      * destruct (m (g (sh p))) eqn:Em; simpl; [by rewrite Em|].
        apply lookup_empty.
      * by destruct (m (g (sh p))).
      * by destruct (m (g (sh p))).
      * apply Forall_insert; [done|]. simpl. auto.
    + rewrite Hkt, Hm in Hadv. injection Hadv as <- <-.
      left. split_and!; try done. apply Forall_insert; [done|]. simpl. auto.
    + injection Hadv as <- <-. right.
      eexists i, _, (fresh (dom (heap (sh p)))), _.
      split_and!; [by apply list_lookup_insert_eq
                  |simpl; apply lookup_insert_eq|by simpl|].
      intros j t2 Hne Hj. rewrite list_lookup_insert_ne in Hj by done.
      simpl.
      assert (holds_mu t2 = false) as Hh.
      { apply (holders_alone (threads p) i t j t2); try done.
        unfold holds_mu. by rewrite Hp. }
      pose proof (Forall_lookup_1 _ _ _ _ Hall Hj) as Hpos2.
      unfold holds_mu in Hh. by destruct Hpos2 as [H2|[H2|[H2|H2]]];
        rewrite H2 in Hh |- *.
  - destruct (decide (i = il)) as [->|Hne].
    + (* the leader moves *)
      rewrite Hil in Hi. injection Hi as ->.
      destruct (leader_step _ _ _ _ _ _ _ _ _ Hc Hkt Hlead Hadv)
        as (cl' & Hc' & Hlead' & Hoth').
      right. exists il, t', c, cl'.
      split_and!; [by apply list_lookup_insert_eq|done|by rewrite Hf'|].
      intros j t2 Hnej Hj. rewrite list_lookup_insert_ne in Hj by done.
      apply Hoth'; [by apply (Hoth j)|]. intros Hr. split.
      * by apply (Forall_lookup_1 _ _ _ _ (Hrem Hr) Hj).
      * apply (holders_alone (threads p) il t j t2); try done.
        unfold removing in Hr. unfold holds_mu. by destruct (pos t).
    + (* another goroutine moves *)
      destruct (other_step k0 w0 r0 (fn tl) c cl (sh p) (pos tl) t t' s')
        as (Hoth' & Hh & Hm & Hr & Hw); try done.
      { intros Hhold. pose proof (holders_lookup _ _ _ Hil) as Hle.
        change (holds_mu tl = true) in Hhold. rewrite Hhold, Hmu in Hle.
        by destruct (mu (g (sh p))); simpl in *; [|lia]. }
      { by apply (Hoth i). }
      right. exists il, tl, c, cl.
      split_and!; [by rewrite list_lookup_insert_ne|by rewrite Hh
                  |by apply (lead_ok_ext _ _ _ _ _ _ (sh p))|].
      intros j t2 Hnej Hj. destruct (decide (j = i)) as [->|Hji].
      * rewrite list_lookup_insert_eq in Hj by done. by injection Hj as <-.
      * rewrite list_lookup_insert_ne in Hj by done. by apply (Hoth j).
Qed.

Lemma burst_inv k0 w0 r0 fs p p' :
  burst p p' → inv k0 w0 r0 fs p → inv k0 w0 r0 fs p'.
Proof.
  induction 1 as [|p p' p'' i t Hi Hrem Hstep _ IH]; [done|].
  intros Hinv. apply IH. by apply (inv_step _ _ _ _ p i t).
Qed.

Lemma burst_length p p' :
  burst p p' → length (threads p') = length (threads p).
Proof.
  induction 1 as [|p p' p'' i t Hi Hrem Hstep _ IH]; [done|].
  rewrite IH. unfold pool_step in Hstep. rewrite Hi in Hstep.
  simpl in Hstep. destruct (advance t (sh p)); [|done..].
  injection Hstep as <-. simpl. apply length_insert.
Qed.

Lemma calls_inv k fs s :
  idle k s → inv k (world s) (ran s) fs (calls k fs s).
Proof.
  intros [Hmu Hk]. split_and!.
  - apply Forall_fmap, Forall_forall. by intros f Hf.
  - unfold mutex_ok, calls, holders. simpl. rewrite Hmu.
    induction fs as [|f fs' IH]; [done|]. by csimpl.
  - left. split_and!; try done.
    apply Forall_fmap, Forall_forall. intros f Hf. simpl. auto.
Qed.

Lemma holders_returned ts r :
  Forall (λ t, pos t = Returned r) ts → holders ts = 0.
Proof.
  induction 1 as [|t ts Ht _ IH]; [done|].
  unfold holders, holds_mu in *. simpl. by rewrite Ht, IH.
Qed.

(** A schedule that [replay] accepts is a run of a burst. *)
Lemma replay_burst sched : ∀ p p', replay sched p = Some p' → burst p p'.
Proof.
  induction sched as [|i sched IH]; intros p p' Hr; simpl in Hr.
  { injection Hr as <-. constructor. }
  destruct (threads p !! i) as [t|] eqn:Hi; [|done]. simpl in Hr.
  destruct (removing t && negb (forallb arrived (threads p))) eqn:Hc;
    [done|].
  destruct (pool_step i p) as [p1|] eqn:Hstep; [|done]. simpl in Hr.
  apply (burst_step p p1 p' i t); [done| |done|by apply IH].
  intros Hrem. rewrite Hrem in Hc. simpl in Hc.
  apply negb_false_iff in Hc. apply Forall_forall. intros t' Ht'.
  rewrite forallb_forall in Hc. apply Hc. by apply list_elem_of_In.
Qed.

(** *** The properties of the specification *)

(** C6.  Calls [Do(k, f)] one after the other, none starting before the
    one before has returned: each runs its own function once, on the world
    as the call before left it, and returns what this run produced, be it
    a value or an error; when it returns the group has no record for [k]
    and the mutex is free, so the next call starts afresh. *)
Theorem Do_sequential k f1 f2 s :
  idle k s →
  ∃ s1 s2,
    Do k f1 s = Some ((f1 (world s)).1, s1) ∧
    world s1 = (f1 (world s)).2 ∧
    ran s1 = ran s ++ [(k, (f1 (world s)).1)] ∧
    idle k s1 ∧
    Do k f2 s1 = Some ((f2 (world s1)).1, s2) ∧
    world s2 = (f2 (world s1)).2 ∧
    ran s2 = ran s ++ [(k, (f1 (world s)).1); (k, (f2 (world s1)).1)] ∧
    idle k s2.
Proof.
  intros Hs. pose proof (done_idle k f1 s Hs) as Hs1.
  exists (done k f1 s), (done k f2 (done k f1 s)).
  rewrite (Do_idle k f1 s Hs), (Do_idle k f2 _ Hs1).
  split_and!; try done. simpl. by rewrite <- app_assoc.
Qed.

(** *** Any keys, any interleaving: what one statement changes *)

Ltac step_cases H :=
  unfold advance, lock, unlock, with_call in H;
  destruct (pos _) eqn:?; repeat case_match; simplify_eq/=.

Lemma pool_step_inv i p p' :
  pool_step i p = Some p' →
  ∃ t t' s', threads p !! i = Some t ∧ advance t (sh p) = Step t' s' ∧
             p' = Pool (<[i := t']> (threads p)) s'.
Proof.
  unfold pool_step. intros Hstep.
  destruct (threads p !! i) as [t|] eqn:Hi; [|done]. simpl in Hstep.
  destruct (advance t (sh p)) as [t' s'| | |] eqn:Hadv; [|done..].
  injection Hstep as <-. by exists t, t', s'.
Qed.

Lemma lookup_stepped (ts : list goroutine) i t' j u :
  <[i := t']> ts !! j = Some u →
  (j = i ∧ u = t') ∨ (j ≠ i ∧ ts !! j = Some u).
Proof.
  intros Hj. destruct (decide (j = i)) as [->|Hne].
  - left. split; [done|].
    apply list_lookup_insert_Some in Hj as [(_ & -> & _)|[? _]]; done.
  - right. by rewrite list_lookup_insert_ne in Hj.
Qed.

Lemma advance_made t s t' s' :
  advance t s = Step t' s' → is_Some (m (g s)) → is_Some (m (g s')).
Proof. intros Hadv [mp Hm]. step_cases Hadv; rewrite ?Hm; by eauto. Qed.

Lemma advance_lookup t s t' s' k :
  advance t s = Step t' s' →
  m (g s') ≫= (.!! k) = m (g s) ≫= (.!! k) ∨
  k = key t ∧ ∃ c, pos t = Register c ∨ pos t = Delete c.
Proof.
  intros Hadv.
  step_cases Hadv; try (left; by rewrite ?H);
    destruct (decide (k = key t)) as [->|Hne];
    try (right; by eauto); left.
  - by rewrite lookup_insert_ne.
  - destruct (m (g s)) as [mp|]; [|done]. simpl. by rewrite lookup_delete_ne.
Qed.

Lemma advance_heap t s t' s' c :
  advance t s = Step t' s' →
  heap s' !! c = heap s !! c ∨
  pos t = New ∧ heap s !! c = None ∨
  own (pos t) = Some c ∧ (pos t = WgAdd c ∨ pos t = CallFn c ∨ pos t = WgDone c).
Proof.
  intros Hadv.
  step_cases Hadv; try (by left).
  - destruct (decide (c = fresh (dom (heap s)))) as [->|Hne].
    + right. left. split; [done|]. apply not_elem_of_dom, is_fresh.
    + left. by rewrite lookup_insert_ne.
  - destruct (decide (c = c0)) as [->|Hne]; [by eauto 6|].
    left. by rewrite lookup_insert_ne.
  - destruct (decide (c = c0)) as [->|Hne]; [by eauto 6|].
    left. by rewrite lookup_insert_ne.
  - destruct (decide (c = c0)) as [->|Hne]; [by eauto 6|].
    left. by rewrite lookup_insert_ne.
Qed.

Lemma advance_own t s t' s' c :
  advance t s = Step t' s' → own (pos t') = Some c →
  own (pos t) = Some c ∨ pos t = New ∧ heap s !! c = None.
Proof.
  intros Hadv Hown. step_cases Hadv; try (by left).
  right. split; [done|]. apply not_elem_of_dom, is_fresh.
Qed.

Lemma advance_serving t s t' s' c :
  advance t s = Step t' s' → serving (pos t) = Some c →
  serving (pos t') = Some c ∨ pos t = WgDone c.
Proof. intros Hadv Hs. step_cases Hadv; by eauto. Qed.

Lemma advance_registered t s t' s' c :
  advance t s = Step t' s' → registered (pos t) = Some c →
  registered (pos t') = Some c ∨ pos t = Delete c.
Proof. intros Hadv Hs. step_cases Hadv; by eauto. Qed.

Lemma advance_WgAdd t s t' s' c :
  advance t s = Step t' s' → pos t' = WgAdd c →
  pos t = New ∧ heap s !! c = None.
Proof.
  intros Hadv Hp. step_cases Hadv.
  split; [done|]. apply not_elem_of_dom, is_fresh.
Qed.

Lemma advance_map t s t' s' k c :
  advance t s = Step t' s' → m (g s') ≫= (.!! k) = Some c →
  m (g s) ≫= (.!! k) = Some c ∧ (k = key t → ∀ c', pos t ≠ Delete c') ∨
  k = key t ∧ pos t = Register c ∧ pos t' = Unlock2 c.
Proof.
  intros Hadv Hk. step_cases Hadv; try (left; by split).
  - left. rewrite H in Hk. by split.
  - destruct (decide (k = key t)) as [->|Hne].
    + rewrite lookup_insert_eq in Hk. right. naive_solver.
    + rewrite lookup_insert_ne in Hk by done. left. by split.
  - destruct (m (g s)) as [mp|]; [|done]. simpl in *.
    destruct (decide (k = key t)) as [->|Hne].
    + by rewrite lookup_delete_eq in Hk.
    + rewrite lookup_delete_ne in Hk by done. left. by split.
Qed.

Lemma serving_own l c : serving l = Some c → own l = Some c.
Proof. by destruct l. Qed.

Lemma own_heap cs s t c :
  leader_ok cs s t → own (pos t) = Some c → is_Some (heap s !! c).
Proof.
  unfold leader_ok. destruct (pos t); simpl; intros Hok [= <-];
    decompose [and ex] Hok; eauto.
Qed.

Lemma registered_own l c : registered l = Some c → own l = Some c.
Proof. by destruct l. Qed.

Lemma leader_frame cs s s' u :
  (is_Some (m (g s)) → is_Some (m (g s'))) →
  (reads_map (pos u) →
   m (g s') ≫= (.!! key u) = m (g s) ≫= (.!! key u)) →
  (∀ c, own (pos u) = Some c → heap s' !! c = heap s !! c) →
  leader_ok cs s u → leader_ok cs s' u.
Proof.
  unfold leader_ok. intros Hm Hk Hh.
  destruct (pos u); simpl in *;
    rewrite ?Hk, ?(Hh _ eq_refl) by done; tauto.
Qed.

(** *** Any keys, any interleaving: the invariant is kept *)

Lemma mutex_one p : mutex_ok p → holders (threads p) ≤ 1.
Proof. unfold mutex_ok. intros ->. destruct (mu (g (sh p))); simpl; lia. Qed.

Lemma safe_call cs p i t :
  safe cs p → threads p !! i = Some t → (key t, fn t) ∈ cs.
Proof.
  intros (_ & <- & _) Hi. apply list_elem_of_fmap. exists t.
  split; [done|]. by eapply list_elem_of_lookup_2.
Qed.

Lemma leader_others cs p i t t' s' j u :
  safe cs p → threads p !! i = Some t → advance t (sh p) = Step t' s' →
  j ≠ i → threads p !! j = Some u → leader_ok cs s' u.
Proof.
  intros (Hmu & Hid & Hlead & Hwait & Hapart & Hmap) Hi Hadv Hne Hj.
  pose proof (Forall_lookup_1 _ _ _ _ Hlead Hi) as Ht.
  pose proof (Forall_lookup_1 _ _ _ _ Hlead Hj) as Hu.
  apply (leader_frame cs (sh p)); [..|done].
  - by apply (advance_made t _ t').
  - intros Hreads.
    destruct (advance_lookup _ _ _ _ (key u) Hadv) as [?|(Hk & c & Hpos)];
      [done|].
    exfalso.
    assert (holds_mu t = true) as Hh
      by (unfold holds_mu; by destruct Hpos as [-> | ->]).
    pose proof (holders_alone _ _ _ _ _ (mutex_one _ Hmu) Hi Hh Hne Hj)
      as Hnoh.
    unfold leader_ok in Ht, Hu. unfold holds_mu in Hnoh.
    destruct (pos u) eqn:Hpu; try done; simpl in *;
      destruct Hpos as [Hpt|Hpt]; rewrite Hpt in Ht; rewrite Hk in Hu;
      destruct Ht as (Ht1 & Ht2); destruct Hu as (Hu1 & Hu2);
      try (destruct Ht2 as (Ht2 & _); congruence);
      rewrite Ht1 in Hu1; injection Hu1 as ->;
      apply Hne; apply (Hapart j i u t c0); by rewrite ?Hpu, ?Hpt.
  - intros c Hown.
    destruct (advance_heap _ _ _ _ c Hadv) as [?|[[_ Hnone]|[Hown' _]]];
      [done|..].
    + destruct (own_heap _ _ _ _ Hu Hown) as [? ?]. congruence.
    + exfalso. apply Hne. by apply (Hapart j i u t c).
Qed.

Lemma leader_self cs p i t t' s' :
  safe cs p → threads p !! i = Some t → advance t (sh p) = Step t' s' →
  leader_ok cs s' t'.
Proof.
  intros Hsafe Hi Hadv. pose proof (safe_call _ _ _ _ Hsafe Hi) as Hcall.
  destruct Hsafe as (Hmu & Hid & Hlead & Hwait & Hapart & Hmap).
  pose proof (Forall_lookup_1 _ _ _ _ Hlead Hi) as Ht.
  pose proof (Forall_lookup_1 _ _ _ _ Hwait Hi) as Hw.
  unfold leader_ok, waiter_ok in *.
  step_cases Hadv; rewrite ?Heqp in *; simpl in *; try done;
    rewrite ?lookup_insert_eq.
  - destruct (Hw c eq_refl) as (cl & Hcl & [[Hne _]|(_ & Hprod & _)]);
      [done|]. by simplify_eq.
  - destruct Ht as (? & ?). split_and!; [done..|]. by eexists.
  - destruct Ht as (? & ? & cl & Hcl & Hwg). simplify_eq.
    split_and!; [done..|]. eexists. split; [done|]. simpl. lia.
  - destruct Ht as (? & ? & cl & Hcl & Hwg). split; [done|]. by exists cl.
  - destruct Ht as (? & cl & Hcl & Hwg). simplify_eq.
    split; [done|]. eexists. split_and!; [done..|].
    exists (fn t), (world (sh p)). split; [done|].
    unfold res. simpl. by destruct (fn t (world (sh p))) as [[v e] w].
  - destruct Ht as (? & cl & Hcl & Hwg & Hprod). simplify_eq.
    split; [done|]. eexists. split_and!; [done| |done]. simpl. lia.
  - destruct Ht as (? & cl & Hcl & Hwg & Hprod). by exists cl.
  - destruct Ht as (cl & Hcl & Hwg & Hprod). by simplify_eq.
Qed.

Lemma advance_CallFn t s t' s' c :
  advance t s = Step t' s' → pos t = CallFn c →
  pos t' = WgDone c ∧ is_Some (heap s' !! c).
Proof.
  intros Hadv Hp. step_cases Hadv. split; [done|].
  rewrite lookup_insert_eq. by eexists.
Qed.

Lemma advance_WgDone t s t' s' c :
  advance t s = Step t' s' → pos t = WgDone c →
  ∃ cl, heap s !! c = Some cl ∧ pos t' = Lock3 c ∧
        heap s' !! c = Some (mkCall (wg cl - 1) (val cl) (err cl)).
Proof.
  intros Hadv Hp. step_cases Hadv. eexists. split_and!; [done..|].
  by rewrite lookup_insert_eq.
Qed.

Lemma waiter_others cs p i t t' s' j u :
  safe cs p → threads p !! i = Some t → advance t (sh p) = Step t' s' →
  j ≠ i → threads p !! j = Some u →
  waiter_ok cs (Pool (<[i := t']> (threads p)) s') u.
Proof.
  intros (Hmu & Hid & Hlead & Hwait & Hapart & Hmap) Hi Hadv Hne Hj.
  pose proof (Forall_lookup_1 _ _ _ _ Hlead Hi) as Ht.
  pose proof (Forall_lookup_1 _ _ _ _ Hwait Hj) as Hu.
  destruct (advance_same _ _ _ _ Hadv) as [Hkey _].
  pose proof (lookup_lt_Some _ _ _ Hi) as Hlt.
  intros c Hc. destruct (Hu c Hc) as (cl & Hcl & Hdis). simpl.
  assert (∀ j' tj', <[i := t']> (threads p) !! j' = Some tj' →
            (∀ j0 t0, threads p !! j0 = Some t0 → pos t0 ≠ WgAdd c) →
            pos tj' ≠ WgAdd c) as Hfresh.
  { intros j' tj' [(-> & ->)|(? & ?)]%lookup_stepped Hno; [|by eauto].
    intros Hp. destruct (advance_WgAdd _ _ _ _ _ Hadv Hp) as [_ ?].
    congruence. }
  destruct (advance_heap _ _ _ _ c Hadv) as [Hsame|[[_ Hnone]|[Hown Hpos]]].
  - exists cl. rewrite Hsame. split; [done|].
    destruct Hdis as [(Hnr & jw & tw & Hjw & Hkw & Hsv)|(Hwg & Hprod & Hno)].
    + left. split; [done|]. destruct (decide (jw = i)) as [->|Hjne].
      * assert (tw = t) as -> by congruence.
        destruct (advance_serving _ _ _ _ _ Hadv Hsv) as [Hsv'|Hdone].
        { exists i, t'. rewrite list_lookup_insert_eq by done.
          split_and!; [done|congruence|done]. }
        destruct (advance_WgDone _ _ _ _ _ Hadv Hdone)
          as (cl0 & Hcl0 & _ & Hcl').
        rewrite Hsame, Hcl in Hcl'. rewrite Hcl in Hcl0.
        injection Hcl0 as <-. injection Hcl' as Hcl'.
        apply (f_equal wg) in Hcl'. simpl in Hcl'. lia.
      * exists jw, tw. by rewrite list_lookup_insert_ne.
    + right. split_and!; [done..|]. intros j' tj' Hj'. by eapply Hfresh.
  - congruence.
  - destruct Hdis as [(Hnr & jw & tw & Hjw & Hkw & Hsv)|(Hwg & Hprod & Hno)].
    + assert (jw = i) as ->.
      { apply (Hapart jw i tw t c); [done..|by apply serving_own|done]. }
      assert (tw = t) as -> by congruence.
      destruct Hpos as [Hp|[Hp|Hp]].
      * by rewrite Hp in Hsv.
      * destruct (advance_CallFn _ _ _ _ _ Hadv Hp) as [Hp' [cl' Hcl']].
        exists cl'. split; [done|]. left. split; [done|].
        exists i, t'. rewrite list_lookup_insert_eq by done.
        split_and!; [done|congruence|by rewrite Hp'].
      * destruct (advance_WgDone _ _ _ _ _ Hadv Hp)
          as (cl0 & Hcl0 & Hp' & Hcl').
        unfold leader_ok in Ht. rewrite Hp in Ht.
        destruct Ht as (_ & cl1 & Hcl1 & Hwg1 & Hprod1).
        assert (cl1 = cl0) as -> by congruence.
        eexists. split; [done|]. right. simpl. split_and!; [lia| |].
        { by rewrite <- Hkw. }
        intros j' tj' [(-> & ->)|(Hj' & Hl')]%lookup_stepped Hpj.
        { by rewrite Hp' in Hpj. }
        apply Hj'. apply (Hapart j' i tj' t c); [done..|by rewrite Hpj|done].
    + exfalso. destruct Hpos as [Hp|[Hp|Hp]].
      * by apply (Hno i t).
      * unfold leader_ok in Ht. rewrite Hp in Ht.
        destruct Ht as (_ & cl1 & Hcl1 & Hwg1).
        assert (cl1 = cl) as -> by congruence. lia.
      * unfold leader_ok in Ht. rewrite Hp in Ht.
        destruct Ht as (_ & cl1 & Hcl1 & Hwg1 & _).
        assert (cl1 = cl) as -> by congruence. lia.
Qed.

Lemma waiter_self cs p i t t' s' :
  safe cs p → threads p !! i = Some t → advance t (sh p) = Step t' s' →
  waiter_ok cs (Pool (<[i := t']> (threads p)) s') t'.
Proof.
  intros (Hmu & Hid & Hlead & Hwait & Hapart & Hmap) Hi Hadv.
  pose proof (Forall_lookup_1 _ _ _ _ Hwait Hi) as Hw.
  clear Hid. intros c Hc. unfold waiter_ok in Hw. simpl.
  step_cases Hadv; rewrite ?Heqp in *; simpl in *; simplify_eq.
  - destruct (Hmap (key t) c) as (jw & tw & Hjw & Hkw & Hreg); [|done|].
    { apply list_elem_of_fmap. exists t. split; [done|].
      by eapply list_elem_of_lookup_2. }
    assert (jw ≠ i) as Hne.
    { intros ->. assert (tw = t) as -> by congruence.
      by rewrite Heqp0 in Hreg. }
    pose proof (Forall_lookup_1 _ _ _ _ Hlead Hjw) as Htw.
    unfold leader_ok in Htw.
    assert (∀ j tj, <[i := goto (HitUnlock c) t]> (threads p) !! j = Some tj →
              pos tj ≠ WgAdd c) as Hno.
    { intros j tj [(-> & ->)|(Hj & Hl)]%lookup_stepped Hpj; [done|].
      assert (j = jw) as ->.
      { apply (Hapart j jw tj tw c); [done..|by rewrite Hpj|].
        by apply registered_own. }
      assert (tj = tw) as -> by congruence. by rewrite Hpj in Hreg. }
    destruct (pos tw) eqn:Hptw; simplify_eq/=.
    + destruct Htw as (_ & cl & Hcl & _). exists cl. split; [done|].
      left. split; [done|]. exists jw, tw.
      rewrite list_lookup_insert_ne by done. by rewrite Hptw.
    + destruct Htw as (_ & cl & Hcl & _). exists cl. split; [done|].
      left. split; [done|]. exists jw, tw.
      rewrite list_lookup_insert_ne by done. by rewrite Hptw.
    + destruct Htw as (_ & cl & Hcl & _). exists cl. split; [done|].
      left. split; [done|]. exists jw, tw.
      rewrite list_lookup_insert_ne by done. by rewrite Hptw.
    + destruct Htw as (_ & cl & Hcl & Hwg & Hprod). exists cl.
      split; [done|]. right. rewrite <- Hkw. by split_and!.
    + destruct Htw as (_ & cl & Hcl & Hwg & Hprod). exists cl.
      split; [done|]. right. rewrite <- Hkw. by split_and!.
  - destruct (Hw c eq_refl) as (cl & Hcl & Hdis). exists cl.
    split; [done|].
    destruct Hdis as [(_ & jw & tw & Hjw & Hkw & Hsv)|(Hwg & Hprod & Hno)].
    + left. split; [done|]. exists jw, tw. split_and!; [|done..].
      rewrite list_lookup_insert_ne; [done|]. intros ->.
      assert (tw = t) as -> by congruence. by rewrite Heqp0 in Hsv.
    + right. split_and!; [done..|].
      intros j tj [(-> & ->)|(Hj & Hl)]%lookup_stepped; [done|by eauto].
  - destruct (Hw c eq_refl) as (cl & Hcl & Hdis). exists cl.
    split; [done|]. right.
    destruct Hdis as [(_ & jw & tw & Hjw & Hkw & Hsv)|(Hwg & Hprod & Hno)].
    + exfalso. pose proof (Forall_lookup_1 _ _ _ _ Hlead Hjw) as Htw.
      unfold leader_ok in Htw.
      destruct (pos tw); simplify_eq/=;
        destruct Htw as (_ & cl' & Hcl' & Hwg' & _) ||
        destruct Htw as (_ & cl' & Hcl' & Hwg'); simplify_eq; lia.
    + split_and!; [done..|].
      intros j tj [(-> & ->)|(Hj & Hl)]%lookup_stepped; [done|by eauto].
Qed.

Lemma safe_step cs i p p' : safe cs p → pool_step i p = Some p' → safe cs p'.
Proof.
  intros Hsafe Hstep.
  destruct (pool_step_inv _ _ _ Hstep) as (t & t' & s' & Hi & Hadv & ->).
  pose proof Hsafe as (Hmu & Hid & Hlead & Hwait & Hapart & Hmap).
  destruct (advance_same _ _ _ _ Hadv) as [Hkey Hfn].
  pose proof (lookup_lt_Some _ _ _ Hi) as Hlt.
  split_and!; simpl.
  - by eapply mutex_step.
  - rewrite list_fmap_insert, Hkey, Hfn, list_insert_id; [done|].
    by rewrite list_lookup_fmap, Hi.
  - apply Forall_lookup_2. intros j u [(-> & ->)|(? & ?)]%lookup_stepped.
    + by apply (leader_self cs p i t).
    + by apply (leader_others cs p i t t' s' j).
  - apply Forall_lookup_2. intros j u [(-> & ->)|(? & ?)]%lookup_stepped.
    + by apply (waiter_self cs p i t).
    + by apply (waiter_others cs p i t t' s' j).
  - intros a b ta tb c Ha Hb Hoa Hob. simpl in *.
    apply lookup_stepped in Ha as [(-> & ->)|(Hane & Ha)];
      apply lookup_stepped in Hb as [(-> & ->)|(Hbne & Hb)]; [done|..].
    + destruct (advance_own _ _ _ _ _ Hadv Hoa) as [Hot|[_ Hnone]].
      * by apply (Hapart i b t tb c).
      * destruct (own_heap cs (sh p) tb c) as [? ?];
          [by eapply Forall_lookup_1|done|congruence].
    + destruct (advance_own _ _ _ _ _ Hadv Hob) as [Hot|[_ Hnone]].
      * by apply (Hapart a i ta t c).
      * destruct (own_heap cs (sh p) ta c) as [? ?];
          [by eapply Forall_lookup_1|done|congruence].
    + by apply (Hapart a b ta tb c).
  - intros k c Hin Hk. simpl in *.
    assert (k ∈ key <$> threads p) as Hin0.
    { rewrite list_fmap_insert, Hkey, list_insert_id in Hin; [done|].
      by rewrite list_lookup_fmap, Hi. }
    destruct (advance_map _ _ _ _ _ _ Hadv Hk) as [[Hk0 Hnd]|(-> & Hp & Hp')].
    + destruct (Hmap _ _ Hin0 Hk0) as (jw & tw & Hjw & Hkw & Hreg).
      destruct (decide (jw = i)) as [->|Hne].
      * assert (tw = t) as -> by congruence.
        destruct (advance_registered _ _ _ _ _ Hadv Hreg) as [?|Hd].
        { exists i, t'. rewrite list_lookup_insert_eq by done.
          split_and!; [done|congruence|done]. }
        exfalso. by apply (Hnd (eq_sym Hkw) c).
      * exists jw, tw. by rewrite list_lookup_insert_ne.
    + exists i, t'. rewrite list_lookup_insert_eq by done.
      split_and!; [done|done|by rewrite Hp'].
Qed.

Lemma follow_safe cs sched : ∀ p p',
  follow sched p = Some p' → safe cs p → safe cs p'.
Proof.
  induction sched as [|i sched IH]; intros p p' Hrun Hsafe; simpl in Hrun.
  { by injection Hrun as <-. }
  destruct (pool_step i p) as [p1|] eqn:Hstep; [|done].
  apply (IH p1); [done|]. by apply (safe_step cs i p).
Qed.

Lemma starts_safe_keys cs s :
  mu (g s) = false → (∀ k, k ∈ cs.*1 → m (g s) ≫= (.!! k) = None) →
  safe cs (starts cs s).
Proof.
  intros Hmu Hm. unfold safe, starts. simpl. split_and!.
  - unfold mutex_ok. simpl. rewrite Hmu. clear Hm.
    induction cs as [|c cs IH]; [done|]. apply IH.
  - rewrite <- list_fmap_compose. clear Hm.
    induction cs as [|[k f] cs IH]; [done|]. csimpl. by rewrite IH.
  - apply Forall_fmap, Forall_true. by intros c.
  - apply Forall_fmap, Forall_true. by intros c c0.
  - intros i j ti tj c (ci & -> & _)%list_lookup_fmap_Some. done.
  - intros k c Hin. rewrite Hm; [done|].
    apply list_elem_of_fmap in Hin as (t & -> & Hin).
    apply list_elem_of_fmap in Hin as (c0 & -> & Hin).
    apply list_elem_of_fmap. by exists c0.
Qed.

Lemma starts_safe cs s : rest s → safe cs (starts cs s).
Proof. intros [Hmu Hm]. apply starts_safe_keys; auto. Qed.

(** *** Any keys, any interleaving: what the invariant gives *)

Lemma follow_mutex sched : ∀ p p',
  follow sched p = Some p' → mutex_ok p → mutex_ok p'.
Proof.
  induction sched as [|i sched IH]; intros p p' Hrun Hmu; simpl in Hrun.
  { by injection Hrun as <-. }
  destruct (pool_step i p) as [p1|] eqn:Hstep; [|done].
  apply (IH p1); [done|]. by apply (mutex_step i p).
Qed.

Lemma holder_locks p i t :
  mutex_ok p → threads p !! i = Some t → holds_mu t = true →
  mu (g (sh p)) = true.
Proof.
  unfold mutex_ok. intros Hmu Hi Hh.
  pose proof (holders_lookup _ _ _ Hi) as Hle. rewrite Hh in Hle.
  destruct (mu (g (sh p))); [done|]. simpl in *. lia.
Qed.

Lemma holders_pos ts :
  0 < holders ts → ∃ i t, ts !! i = Some t ∧ holds_mu t = true.
Proof.
  unfold holders. induction ts as [|a ts IH]; simpl; [lia|]. intros Hpos.
  destruct (holds_mu a) eqn:Ha.
  - by exists 0, a.
  - destruct IH as (i & t & ? & ?); [simpl in *; lia|]. by exists (S i), t.
Qed.

Lemma safe_no_panic cs p i t :
  safe cs p → threads p !! i = Some t → advance t (sh p) ≠ Panic.
Proof.
  intros (Hmu & _ & Hlead & Hwait & _) Hi.
  pose proof (Forall_lookup_1 _ _ _ _ Hlead Hi) as Ht.
  pose proof (Forall_lookup_1 _ _ _ _ Hwait Hi) as Hw.
  pose proof (holder_locks _ _ _ Hmu Hi) as Hheld.
  unfold advance, lock, unlock, with_call, leader_ok, waiter_ok, holds_mu
    in *.
  destruct (pos t) eqn:Hp; simpl in *; rewrite ?Hheld by done;
    try (destruct (Hw _ eq_refl) as (cl & -> & _));
    try done.
  - by destruct (mu (g (sh p))).
  - by case_match.
  - by case_match.
  - by destruct Ht as (_ & _ & cl & -> & _).
  - by destruct Ht as ([mp ->] & _).
  - by destruct Ht as (_ & cl & -> & _).
  - destruct Ht as (_ & cl & -> & Hwg & _). rewrite decide_False by lia. done.
  - by destruct (mu (g (sh p))).
  - by destruct Ht as (cl & -> & _).
Qed.

(** A goroutine waits at a locked mutex that it does not hold, or for a
    wait group that is not at zero. *)
Lemma advance_blocked t s :
  advance t s = Blocked →
  mu (g s) = true ∧ holds_mu t = false ∨
  ∃ c cl, pos t = HitWait c ∧ heap s !! c = Some cl ∧ wg cl ≠ 0%Z.
Proof.
  unfold advance, lock, unlock, with_call, holds_mu.
  destruct (pos t); repeat case_match; intros ?; simplify_eq; eauto 7.
Qed.

Lemma advance_halted t s : advance t s = Halted → returned t.
Proof.
  unfold advance, lock, unlock, with_call, returned.
  destruct (pos t); repeat case_match; by intros ?.
Qed.

(** While the mutex is locked, the goroutine that holds it can move. *)
Lemma holder_moves cs p :
  safe cs p → mu (g (sh p)) = true → ∃ i p', pool_step i p = Some p'.
Proof.
  intros Hsafe Hlocked. pose proof Hsafe as (Hmu & _).
  destruct (holders_pos (threads p)) as (i & t & Hi & Hh).
  { unfold mutex_ok in Hmu. rewrite Hmu, Hlocked. simpl. lia. }
  exists i. unfold pool_step. rewrite Hi. simpl.
  destruct (advance t (sh p)) as [t' s'| | |] eqn:Hadv; [by eexists|..].
  - apply advance_blocked in Hadv as [[_ ?]|(c & cl & Hp & _)];
      [congruence|]. unfold holds_mu in Hh. by rewrite Hp in Hh.
  - apply advance_halted in Hadv. unfold returned, holds_mu in *.
    by destruct (pos t).
  - by apply (safe_no_panic cs p i t) in Hadv.
Qed.

#[local] Instance returned_dec t : Decision (returned t).
Proof. unfold returned. destruct (pos t); apply _. Defined.

Lemma safe_moves cs p :
  safe cs p →
  Forall returned (threads p) ∨ ∃ i p', pool_step i p = Some p'.
Proof.
  intros Hsafe. destruct (decide (Forall returned (threads p))) as [?|Hnot];
    [by left|right].
  destruct (mu (g (sh p))) eqn:Hlocked; [by apply (holder_moves cs)|].
  apply not_Forall_Exists in Hnot; [|apply _].
  apply Exists_exists in Hnot as (t & [i Hi]%list_elem_of_lookup_1 & Hnr).
  assert (∀ j u, threads p !! j = Some u → ¬ returned u →
            (∀ c, pos u ≠ HitWait c) → ∃ p', pool_step j p = Some p')
    as Hgo.
  { intros j u Hj Hu Hnw. unfold pool_step. rewrite Hj. simpl.
    destruct (advance u (sh p)) as [u' s'| | |] eqn:Hadv; [by eexists|..].
    - apply advance_blocked in Hadv as [[? _]|(c & cl & Hp & _)];
        [congruence|]. by apply Hnw in Hp.
    - by apply advance_halted in Hadv.
    - by apply (safe_no_panic cs p j u) in Hadv. }
  destruct (advance t (sh p)) as [t' s'| | |] eqn:Hadv.
  - exists i. unfold pool_step. rewrite Hi. simpl. rewrite Hadv. by eexists.
  - apply advance_blocked in Hadv as [[? _]|(c & cl & Hp & Hcl & Hwg)];
      [congruence|].
    destruct Hsafe as (_ & _ & _ & Hwait & _).
    pose proof (Forall_lookup_1 _ _ _ _ Hwait Hi) as Hw.
    destruct (Hw c) as (cl' & Hcl' & Hdis); [by rewrite Hp|].
    assert (cl' = cl) as -> by congruence.
    destruct Hdis as [(_ & jw & tw & Hjw & _ & Hsv)|(? & _)]; [|done].
    exists jw. apply (Hgo jw tw Hjw).
    + revert Hsv. unfold returned.
      destruct (pos tw); simpl; by intros ? ?.
    + intros c' Hp'. by rewrite Hp' in Hsv.
  - by apply advance_halted in Hadv.
  - by apply (safe_no_panic cs p i t) in Hadv.
Qed.

Lemma sum_insert (f : goroutine → nat) ts : ∀ i t t',
  ts !! i = Some t →
  sum_list_with f (<[i := t']> ts) + f t = sum_list_with f ts + f t'.
Proof.
  induction ts as [|a ts IH]; intros [|i] t t' Hi; simplify_eq/=; [lia|].
  specialize (IH i t t' Hi). lia.
Qed.

Lemma advance_togo t s t' s' :
  advance t s = Step t' s' → togo (pos t') < togo (pos t).
Proof. intros Hadv. step_cases Hadv; lia. Qed.

Lemma pool_step_remaining i p p' :
  pool_step i p = Some p' →
  remaining (threads p') < remaining (threads p).
Proof.
  intros (t & t' & s' & Hi & Hadv & ->)%pool_step_inv. simpl.
  pose proof (sum_insert (λ t, togo (pos t)) _ _ _ t' Hi).
  pose proof (advance_togo _ _ _ _ Hadv). unfold remaining. lia.
Qed.

Lemma follow_remaining sched : ∀ p p',
  follow sched p = Some p' →
  length sched + remaining (threads p') ≤ remaining (threads p).
Proof.
  induction sched as [|i sched IH]; intros p p' Hrun; simpl in Hrun.
  { injection Hrun as <-. simpl. lia. }
  destruct (pool_step i p) as [p1|] eqn:Hstep; [|done].
  apply IH in Hrun. apply pool_step_remaining in Hstep. simpl in *. lia.
Qed.

Lemma safe_finishes cs p :
  safe cs p → ∃ sched p', follow sched p = Some p' ∧
                          Forall returned (threads p').
Proof.
  remember (remaining (threads p)) as n eqn:Hn. revert p Hn.
  induction n as [n IH] using lt_wf_ind. intros p -> Hsafe.
  destruct (safe_moves cs p Hsafe) as [?|(i & p1 & Hstep)].
  { by exists [], p. }
  destruct (IH _ (pool_step_remaining _ _ _ Hstep) p1 eq_refl)
    as (sched & p' & Hrun & Hall).
  { by apply (safe_step cs i p). }
  exists (i :: sched), p'. simpl. by rewrite Hstep.
Qed.

Lemma advance_past k t s t' s' :
  advance t s = Step t' s' →
  runs_of k (ran s') + past_of k t ≤ runs_of k (ran s) + past_of k t'.
Proof.
  intros Hadv.
  step_cases Hadv; unfold runs_of, past_of, past_fn; simpl; rewrite ?Heqp;
    try (case_decide; simpl; lia).
  rewrite filter_app, length_app, filter_cons, filter_nil. simpl.
  case_decide; simpl; lia.
Qed.

Lemma follow_past k sched : ∀ p p',
  follow sched p = Some p' →
  (λ t, (key t, fn t)) <$> threads p' = (λ t, (key t, fn t)) <$> threads p ∧
  runs_of k (ran (sh p')) + past k (threads p)
  ≤ runs_of k (ran (sh p)) + past k (threads p').
Proof.
  induction sched as [|i sched IH]; intros p p' Hrun; simpl in Hrun.
  { by injection Hrun as <-. }
  destruct (pool_step i p) as [p1|] eqn:Hstep; [|done].
  destruct (IH _ _ Hrun) as [Hid Hle]. rewrite Hid.
  apply pool_step_inv in Hstep as (t & t' & s' & Hi & Hadv & ->).
  simpl in *. destruct (advance_same _ _ _ _ Hadv) as [Hkey Hfn]. split.
  - rewrite list_fmap_insert, Hkey, Hfn, list_insert_id; [done|].
    by rewrite list_lookup_fmap, Hi.
  - pose proof (sum_insert (past_of k) _ _ _ t' Hi).
    pose proof (advance_past k _ _ _ _ Hadv). unfold past in *. lia.
Qed.

Lemma past_calls k ts :
  past k ts ≤ length (filter (λ c, c.1 = k) ((λ t, (key t, fn t)) <$> ts)).
Proof.
  unfold past. induction ts as [|t ts IH]; [done|]. csimpl.
  unfold past_of at 1. rewrite filter_cons. simpl.
  case_decide; simpl; [|lia]. destruct (past_fn t); simpl; lia.
Qed.

Lemma starts_calls cs s :
  (λ t, (key t, fn t)) <$> threads (starts cs s) = cs.
Proof.
  unfold starts. simpl. rewrite <- list_fmap_compose.
  induction cs as [|[k f] cs IH]; [done|]. csimpl. by rewrite IH.
Qed.

Lemma starts_mutex cs s : mu (g s) = false → mutex_ok (starts cs s).
Proof.
  intros Hmu. unfold mutex_ok. simpl. rewrite Hmu.
  induction cs as [|c cs IH]; [done|]. apply IH.
Qed.

Lemma starts_remaining cs s :
  remaining (threads (starts cs s)) = 13 * length cs.
Proof.
  unfold remaining. simpl. induction cs as [|c cs IH]; [done|].
  csimpl. rewrite IH. lia.
Qed.

(** *** Calls in progress together: a run in which all meet *)

Lemma replay_follow sched : ∀ p p',
  replay sched p = Some p' → follow sched p = Some p' ∧ timely sched p.
Proof.
  induction sched as [|i sched IH]; intros p p' Hr; simpl in *; [done|].
  destruct (threads p !! i) as [t|] eqn:Hi; [|done]. simpl in Hr.
  destruct (removing t && negb (forallb arrived (threads p))) eqn:Hc;
    [done|].
  destruct (pool_step i p) as [p1|] eqn:Hstep; [|done]. simpl in *.
  destruct (IH _ _ Hr) as [Hf Ht]. split_and!; [done| |done].
  intros Hrem. rewrite Hrem in Hc. simpl in Hc.
  apply negb_false_iff in Hc. apply Forall_forall. intros t' Ht'.
  rewrite forallb_forall in Hc. apply Hc. by apply list_elem_of_In.
Qed.

Lemma follow_timely_burst sched : ∀ p p',
  follow sched p = Some p' → timely sched p → burst p p'.
Proof.
  induction sched as [|i sched IH]; intros p p' Hf Ht; simpl in *.
  { injection Hf as <-. constructor. }
  destruct (pool_step i p) as [p1|] eqn:Hstep; [|done]. simpl in Hf.
  destruct (pool_step_inv _ _ _ Hstep) as (t & _ & _ & Hi & _).
  rewrite Hi in Ht. destruct Ht as [Hrem Ht].
  apply (burst_step p p1 p' i t); [done..|by apply IH].
Qed.

Lemma replay_step sched pre t suf s t' s' :
  advance t s = Step t' s' →
  (removing t = true → forallb arrived (pre ++ t :: suf) = true) →
  replay (length pre :: sched) (Pool (pre ++ t :: suf) s)
  = replay sched (Pool (pre ++ t' :: suf) s').
Proof.
  intros Hadv Hrem. simpl. rewrite list_lookup_middle by done. simpl.
  assert (removing t && negb (forallb arrived (pre ++ t :: suf)) = false)
    as ->.
  { destruct (removing t); [|done]. by rewrite Hrem. }
  unfold pool_step. simpl. rewrite list_lookup_middle by done. simpl.
  rewrite Hadv. simpl.
  by rewrite insert_app_r_alt, Nat.sub_diag by done.
Qed.

Lemma replay_head sched t suf s t' s' :
  advance t s = Step t' s' →
  (removing t = true → forallb arrived (t :: suf) = true) →
  replay (0 :: sched) (Pool (t :: suf) s)
  = replay sched (Pool (t' :: suf) s').
Proof. apply (replay_step sched []). Qed.

Ltac middle_step :=
  erewrite replay_step;
    [|unfold advance, lock, unlock, with_call; simpl;
      rewrite ?lookup_insert_eq; simpl; reflexivity
     |try done].

(** The others arrive one by one, find the record and wait. *)
Lemma replay_arrive sched k c s :
  mu (g s) = false → m (g s) ≫= (.!! k) = Some c →
  ∀ fs pre,
    replay ((seq (length pre) (length fs) ≫= replicate 4) ++ sched)
           (Pool (pre ++ ((λ f, Goroutine k f Lock1) <$> fs)) s)
    = replay sched
        (Pool (pre ++ ((λ f, Goroutine k f (HitWait c)) <$> fs)) s).
Proof.
  destruct s as [[b mp] h w rn]. simpl. intros -> Hk.
  induction fs as [|f fs IH]; intros pre; [done|].
  rewrite fmap_cons. change (length (f :: fs)) with (S (length fs)).
  rewrite <- cons_seq, bind_cons, <- app_assoc. cbn [replicate app].
  assert (∃ mp0, mp = Some mp0 ∧ mp0 !! k = Some c) as (mp0 & -> & Hk0).
  { destruct mp as [mp0|]; [by exists mp0|done]. }
  middle_step. middle_step.
  erewrite (replay_step _ _ _ _ _ (Goroutine k f (HitUnlock c))); [|..|done].
  2:{ unfold advance. simpl. by rewrite Hk0. }
  middle_step.
  specialize (IH (pre ++ [Goroutine k f (HitWait c)])).
  rewrite length_app, Nat.add_1_r, <- !app_assoc in IH. apply IH.
Qed.

(** The others find the wait group at zero and return what is in the
    record. *)
Lemma replay_pickup sched k c cl s :
  heap s !! c = Some cl → wg cl = 0%Z →
  ∀ fs pre,
    replay ((seq (length pre) (length fs) ≫= replicate 2) ++ sched)
           (Pool (pre ++ ((λ f, Goroutine k f (HitWait c)) <$> fs)) s)
    = replay sched
        (Pool (pre ++ ((λ f, Goroutine k f (Returned (val cl, err cl)))
                         <$> fs)) s).
Proof.
  intros Hc Hwg. induction fs as [|f fs IH]; intros pre; [done|].
  rewrite fmap_cons. change (length (f :: fs)) with (S (length fs)).
  rewrite <- cons_seq, bind_cons, <- app_assoc. cbn [replicate app].
  erewrite (replay_step _ _ _ _ _ (Goroutine k f (HitReturn c))); [|..|done].
  2:{ unfold advance, with_call. simpl. rewrite Hc.
      by rewrite decide_True. }
  erewrite (replay_step _ _ _ _ _
              (Goroutine k f (Returned (val cl, err cl)))); [|..|done].
  2:{ unfold advance, with_call. simpl. by rewrite Hc. }
  specialize (IH (pre ++ [Goroutine k f (Returned (val cl, err cl))])).
  rewrite length_app, Nat.add_1_r, <- !app_assoc in IH. apply IH.
Qed.

Lemma arrived_waiting k c (fs : list func) :
  forallb arrived ((λ f, Goroutine k f (HitWait c)) <$> fs) = true.
Proof. by induction fs. Qed.

(** For any number of calls for one key that start on an idle group there
    is a run in which they are all in progress together, and all
    return. *)
Ltac head_go :=
  etrans;
    [eapply replay_head;
       [unfold advance, lock, unlock, with_call; simpl;
        rewrite ?lookup_insert_eq; simpl; reflexivity
       |try done]
    |].

Lemma together_returns k f fs s :
  idle k s →
  ∃ p, replay (together (length fs)) (calls k (f :: fs) s) = Some p ∧
       Forall returned (threads p).
Proof.
  destruct s as [[b mp] h w rn]. intros [Hmu Hk]. simpl in Hmu, Hk.
  subst b.
  assert (default ∅ mp !! k = None) as Hk'.
  { destruct mp as [mp|]; [done|]. apply lookup_empty. }
  eexists. split.
  - unfold together, calls. do 2 head_go.
    etrans.
    { apply (replay_head _ _ _ _ (Goroutine k f New)
               (Shared (mkGroup true (Some (default ∅ mp))) h w rn));
        [|done].
      unfold advance. destruct mp as [mp|]; simpl in *; by rewrite ?Hk. }
    do 4 head_go.
    etrans.
    { eapply (replay_arrive _ k (fresh (dom h))) with (pre := [_]).
      - reflexivity.
      - simpl. apply lookup_insert_eq. }
    do 3 head_go.
    etrans.
    { eapply replay_head; [unfold advance; simpl; reflexivity|].
      intros _. simpl. apply arrived_waiting. }
    do 2 head_go.
    rewrite <- (app_nil_r (seq 1 (length fs) ≫= replicate 2)).
    etrans.
    { eapply (replay_pickup [] k (fresh (dom h))) with (pre := [_]).
      - simpl. by rewrite !lookup_insert_eq.
      - done. }
    reflexivity.
  - simpl. constructor; [done|].
    apply Forall_fmap, Forall_true. by intros f0.
Qed.

(** *** The properties of the specification: calls in progress together *)

Lemma calls_starts k fs s : calls k fs s = starts ((λ f, (k, f)) <$> fs) s.
Proof. unfold calls, starts. by rewrite <- list_fmap_compose. Qed.

Lemma calls_safe k fs s :
  idle k s → safe ((λ f, (k, f)) <$> fs) (calls k fs s).
Proof.
  intros [Hmu Hk]. rewrite calls_starts. apply starts_safe_keys; [done|].
  intros k' Hin. rewrite <- list_fmap_compose in Hin.
  by apply list_elem_of_fmap in Hin as (f & -> & _).
Qed.

(** C4, amended.  [N >= 1] concurrent calls [Do(k, f)] on a group that
    has no record for [k].  There is a run in which all [N] are in
    progress together and all return.  In every run in which each call has
    looked the key up (line 55) by the time the call record is removed
    (line 72), however the goroutines interleave otherwise: at most one of
    the functions is ever executed; a call that has returned has returned
    the pair of this one execution, which has then taken place, on the
    world the calls started in; once all [N] have returned the group is
    idle again; and the run can always go on until all have returned.
    Calls that are in progress at the same time but of which one looks the
    key up after the removal do not share ([Do_late_call_runs_fn_again]
    below). *)
Theorem Do_coalesces k fs s :
  fs ≠ [] → idle k s →
  (∃ sched p,
     follow sched (calls k fs s) = Some p ∧ timely sched (calls k fs s) ∧
     Forall returned (threads p)) ∧
  ∀ sched p,
    follow sched (calls k fs s) = Some p → timely sched (calls k fs s) →
    length (threads p) = length fs ∧
    (ran (sh p) = ran s ∨
     ∃ f, f ∈ fs ∧ ran (sh p) = ran s ++ [(k, (f (world s)).1)]) ∧
    (∀ t r, t ∈ threads p → pos t = Returned r →
       ∃ f, f ∈ fs ∧ ran (sh p) = ran s ++ [(k, (f (world s)).1)] ∧
            r = (f (world s)).1) ∧
    (Forall returned (threads p) →
     ∃ f, f ∈ fs ∧
          ran (sh p) = ran s ++ [(k, (f (world s)).1)] ∧
          world (sh p) = (f (world s)).2 ∧
          Forall (λ t, pos t = Returned (f (world s)).1) (threads p) ∧
          idle k (sh p)) ∧
    ∃ sched' p', follow sched' p = Some p' ∧ Forall returned (threads p').
Proof.
  intros Hfs Hs. split.
  { destruct fs as [|f fs]; [done|].
    destruct (together_returns k f fs s Hs) as (p & Hrun & Hret).
    apply replay_follow in Hrun as [Hrun Htimely].
    by exists (together (length fs)), p. }
  intros sched p Hrun Htimely.
  pose proof (follow_timely_burst _ _ _ Hrun Htimely) as Hb.
  pose proof (burst_length _ _ Hb) as Hlen.
  destruct (burst_inv k (world s) (ran s) fs _ _ Hb (calls_inv k fs s Hs))
    as (Hkeys & Hmu & Hph).
  simpl in Hlen. rewrite length_fmap in Hlen. split; [done|].
  assert (∃ sched' p', follow sched' p = Some p' ∧
                       Forall returned (threads p')) as Hfin.
  { apply (safe_finishes ((λ f, (k, f)) <$> fs)).
    by apply (follow_safe _ sched (calls k fs s)), calls_safe. }
  destruct Hph as [(Hm & Hran & Hw & Hall)
                  |(il & tl & c & cl & Hil & Hc & Hlead & Hoth)].
  - assert (∀ t r, t ∈ threads p → pos t ≠ Returned r) as Hnone.
    { intros t r Ht Hr. rewrite Forall_forall in Hall.
      by destruct (Hall t Ht) as [H0|[H0|[H0|H0]]]; rewrite H0 in Hr. }
    split_and!; [by left| | |done].
    + intros t r Ht Hr. by destruct (Hnone t r Ht).
    + intros Hret. destruct (threads p) as [|t0 ts] eqn:Hts;
        [by destruct fs|].
      apply Forall_cons in Hret as [Hret _]. unfold returned in Hret.
      destruct (pos t0) eqn:Hp0; try done.
      destruct (Hnone t0 r); [by left|done].
  - pose proof (Forall_lookup_1 _ _ _ _ Hkeys Hil) as [_ Hfl].
    split_and!; [| | |done].
    + destruct (pos tl); simpl in Hlead; try done; destruct_and?;
        (by left) || (right; by exists (fn tl)).
    + intros t r [j Hj]%list_elem_of_lookup_1 Hr. exists (fn tl).
      split; [done|]. destruct (decide (j = il)) as [->|Hne].
      * assert (t = tl) as -> by congruence. rewrite Hr in Hlead.
        simpl in Hlead. by destruct_and?.
      * pose proof (Hoth j t Hne Hj) as Ho. rewrite Hr in Ho.
        destruct (pos tl); simpl in Hlead, Ho; try done;
          destruct_and?; destruct_or?; simplify_eq; done.
    + intros Hret.
      pose proof (Forall_lookup_1 _ _ _ _ Hret Hil) as Hrl.
      unfold returned in Hrl.
      destruct (pos tl) as [| | | | | | | | | | | | | | | |r] eqn:Hpl;
        try done.
      simpl in Hlead. destruct Hlead as (-> & Hm & Hran & Hw & Hres & Hwg).
      assert (Forall (λ t, pos t = Returned (fn tl (world s)).1)
                     (threads p)) as Hall.
      { apply Forall_lookup. intros j t2 Hj.
        destruct (decide (j = il)) as [->|Hne]; [by simplify_eq|].
        pose proof (Forall_lookup_1 _ _ _ _ Hret Hj) as Hr2.
        pose proof (Hoth j t2 Hne Hj) as Ho. simpl in Ho.
        unfold returned in Hr2. rewrite <- Hres.
        by destruct Ho as [Ho|[Ho|Ho]]; rewrite Ho in Hr2 |- *. }
      exists (fn tl). split_and!; try done.
      unfold mutex_ok in Hmu. rewrite (holders_returned _ _ Hall) in Hmu.
      split; [|done]. by destruct (mu (g (sh p))).
Qed.

(** *** Further properties of the code *)

(** X10.  The mutex excludes: however the calls interleave and whatever
    their keys, no two goroutines are at once between a [Lock] and the
    [Unlock] after it, and the mutex is locked exactly when one is. *)
Theorem Do_mutual_exclusion cs s sched p :
  mu (g s) = false → follow sched (starts cs s) = Some p →
  (∀ i j ti tj,
     threads p !! i = Some ti → threads p !! j = Some tj →
     holds_mu ti = true → holds_mu tj = true → i = j) ∧
  (mu (g (sh p)) = true ↔
   ∃ i t, threads p !! i = Some t ∧ holds_mu t = true).
Proof.
  intros Hmu Hrun.
  pose proof (follow_mutex _ _ _ Hrun (starts_mutex cs s Hmu)) as Hok.
  split.
  - intros i j ti tj Hi Hj Hti Htj.
    destruct (decide (j = i)) as [->|Hne]; [done|].
    pose proof (holders_alone _ _ _ _ _ (mutex_one _ Hok) Hi Hti Hne Hj).
    congruence.
  - split.
    + intros Hlocked. apply holders_pos. unfold mutex_ok in Hok.
      rewrite Hok, Hlocked. simpl. lia.
    + intros (i & t & Hi & Ht). by apply (holder_locks p i t).
Qed.

(** X11.  No call of [Do] panics: in a run that starts on a group at
    rest, no statement unlocks a mutex that is not locked, takes a wait
    group below zero, writes to a nil map or goes through a call record
    that does not exist. *)
Theorem Do_never_panics cs s sched p i t :
  rest s → follow sched (starts cs s) = Some p →
  threads p !! i = Some t →
  advance t (sh p) ≠ Panic.
Proof.
  intros Hrest Hrun Hi.
  apply (safe_no_panic cs p i t); [|done].
  by apply (follow_safe cs sched (starts cs s)), starts_safe.
Qed.


(** X13.  The calls finish: a run of [N] calls that starts on a group at
    rest has at most [13 N] steps; as long as a call has not returned some
    goroutine can execute its next statement; and the run can go on to the
    point where every call has returned. *)
Theorem Do_always_finishes cs s sched p :
  rest s → follow sched (starts cs s) = Some p →
  length sched ≤ 13 * length cs ∧
  (Forall returned (threads p) ∨ ∃ i p', pool_step i p = Some p') ∧
  ∃ sched' p', follow sched' p = Some p' ∧ Forall returned (threads p').
Proof.
  intros Hrest Hrun.
  assert (safe cs p) as Hsafe
    by by apply (follow_safe cs sched (starts cs s)), starts_safe.
  split_and!.
  - apply follow_remaining in Hrun. rewrite starts_remaining in Hrun. lia.
  - by apply (safe_moves cs).
  - by apply (safe_finishes cs).
Qed.

(** X14.  Whatever the state of the group and however the calls
    interleave, a function is executed for a key at most as often as [Do] is
    called with this key: no call executes a function twice. *)
Theorem Do_runs_fn_at_most_once_per_call cs s sched p k :
  follow sched (starts cs s) = Some p →
  runs_of k (ran (sh p))
  ≤ runs_of k (ran s) + length (filter (λ c, c.1 = k) cs).
Proof.
  intros Hrun. destruct (follow_past k _ _ _ Hrun) as [Hid Hle].
  pose proof (past_calls k (threads p)) as Hpast.
  rewrite Hid, starts_calls in Hpast. simpl in Hle. lia.
Qed.

(** X15.  A call waits at [c.wg.Wait()] only for a call of its own key:
    when a goroutine is held there, a goroutine with the same key has
    registered this record, is between the registration and [Done], and
    can execute its next statement as soon as the mutex is free. *)
Theorem Do_waits_for_its_own_key cs s sched p i t c :
  rest s → follow sched (starts cs s) = Some p →
  threads p !! i = Some t → pos t = HitWait c →
  advance t (sh p) = Blocked →
  ∃ j tj, threads p !! j = Some tj ∧ key tj = key t ∧
          (pos tj = Unlock2 c ∨ pos tj = CallFn c ∨ pos tj = WgDone c) ∧
          m (g (sh p)) ≫= (.!! key t) = Some c ∧
          (mu (g (sh p)) = false → ∃ p', pool_step j p = Some p').
Proof.
  intros Hrest Hrun Hi Hp Hadv.
  assert (safe cs p) as Hsafe
    by by apply (follow_safe cs sched (starts cs s)), starts_safe.
  pose proof Hsafe as (_ & _ & Hlead & Hwait & _).
  pose proof (Forall_lookup_1 _ _ _ _ Hwait Hi) as Hw.
  destruct (Hw c) as (cl & Hcl & Hdis); [by rewrite Hp|].
  unfold advance, with_call in Hadv. rewrite Hp, Hcl in Hadv.
  destruct (decide (wg cl = 0%Z)) as [|Hwg]; [done|].
  destruct Hdis as [(_ & j & tj & Hj & Hk & Hsv)|(? & _)]; [|done].
  exists j, tj. pose proof (Forall_lookup_1 _ _ _ _ Hlead Hj) as Hok.
  split_and!; [done..| | |].
  - destruct (pos tj); simplify_eq/=; eauto.
  - unfold leader_ok in Hok. rewrite <- Hk.
    destruct (pos tj); simplify_eq/=; by destruct Hok as [? _].
  - intros Hfree. unfold pool_step. rewrite Hj. simpl.
    destruct (advance tj (sh p)) as [u' s'| | |] eqn:Hadvj; [by eexists|..].
    + apply advance_blocked in Hadvj as [[? _]|(c' & cl' & Hp' & _)];
        [congruence|]. by rewrite Hp' in Hsv.
    + apply advance_halted in Hadvj. revert Hsv Hadvj. unfold returned.
      destruct (pos tj); simpl; by intros ? ?.
    + by apply (safe_no_panic cs p j tj) in Hadvj.
Qed.

End Group.

Arguments call : clear implicits.
Arguments shared : clear implicits.
Arguments pc : clear implicits.
Arguments goroutine : clear implicits.
Arguments outcome : clear implicits.
Arguments pool : clear implicits.

(** ** Scenarios *)

(** The functions of the scenarios act on a counter of their executions:
    [fetch z] counts and returns the integer [z], [failing] counts and
    returns an error.  Errors are nil or a message. *)
Definition fetch (z : Z) : func (V := lru.iface) (E := option string) :=
  λ n : nat, ((lru.Int z, None), S n).

Definition failing : func (V := lru.iface) (E := option string) :=
  λ n : nat, ((lru.Nil, Some "no such key"), S n).

(** The zero [Group], and a counter at zero. *)
Definition fresh_group : shared lru.iface (option string) nat :=
  Shared (mkGroup false None) ∅ 0 [].

(** Three calls for one key.  Goroutine 0 goes first, up to the call of
    its function; 1 and 2 arrive and wait; 0 runs the function, signals
    and removes the record; 1 and 2 pick the result up. *)
Definition three_calls : pool lru.iface (option string) nat :=
  calls "k" [fetch 1; fetch 2; fetch 3] fresh_group.

Definition overlapping : list nat :=
  replicate 7 0 ++ replicate 4 1 ++ replicate 4 2 ++
  replicate 6 0 ++ replicate 2 1 ++ replicate 2 2.

Definition three_calls_done : pool lru.iface (option string) nat :=
  default three_calls (replay overlapping three_calls).

(** The function ran once, the counter says so, and the three calls
    returned what it returned. *)
Example three_calls_share :
  replay overlapping three_calls = Some three_calls_done ∧
  pos <$> threads three_calls_done
  = replicate 3 (Returned (lru.Int 1, None)) ∧
  ran (sh three_calls_done) = [("k", (lru.Int 1, None))] ∧
  world (sh three_calls_done) = 1.
Proof. by vm_compute. Qed.

(** What the condition on a burst is for.  Goroutine 0 runs up to its
    last statement, the [return]; its record is gone from the map.
    Goroutine 1 then goes through [Do] while 0 has not returned: it finds
    no record and runs its own function.  Both calls were in progress at
    the same moment, and the functions ran twice.  This is no run of a
    burst: [replay] turns the schedule down. *)
Example late_call_runs_again :
  (p ← foldl (λ op i, op ≫= pool_step i) (Some three_calls)
         (replicate 12 0 ++ replicate 13 1 ++ [0]);
   Some (pos <$> threads p, ran (sh p), world (sh p)))
  = Some ([Returned (lru.Int 1, None); Returned (lru.Int 2, None); Lock1],
          [("k", (lru.Int 1, None)); ("k", (lru.Int 2, None))], 2) ∧
  replay (replicate 12 0 ++ replicate 13 1 ++ [0]) three_calls = None.
Proof. by vm_compute. Qed.

(** C4: the claim fails as stated.  Two calls for one key that are in
    progress at the same time.  Goroutine 0 goes through [Do] up to its
    last statement, the [return]: its function has run and its record is
    gone from the map, and it has not returned.  Goroutine 1, which has
    been at [g.mu.Lock()] all the while, then goes through [Do]: it finds
    no record, runs its own function and returns its own result.  Then
    goroutine 0 returns.  The functions ran twice, and the two calls
    returned different pairs. *)
Lemma Do_late_call_runs_fn_again :
  ∃ p1 p2 p3,
    follow (replicate 12 0) (calls "k" [fetch 1; fetch 2] fresh_group)
    = Some p1 ∧
    pos <$> threads p1 = [Return 1%positive; Lock1] ∧
    follow (replicate 13 1) p1 = Some p2 ∧
    pos <$> threads p2
    = [Return 1%positive; Returned (lru.Int 2, None)] ∧
    follow [0] p2 = Some p3 ∧
    pos <$> threads p3
    = [Returned (lru.Int 1, None); Returned (lru.Int 2, None)] ∧
    ran (sh p3) = [("k", (lru.Int 1, None)); ("k", (lru.Int 2, None))] ∧
    world (sh p3) = 2.
Proof.
  do 3 eexists.
  split; [by vm_compute|]. split; [by vm_compute|].
  split; [by vm_compute|]. split; [by vm_compute|].
  split; [by vm_compute|]. by vm_compute.
Qed.

(** C4, amended, on the three calls and the schedule above. *)
Lemma Do_coalesces_witness :
  (∃ sched p,
     follow sched three_calls = Some p ∧ timely sched three_calls ∧
     Forall returned (threads p)) ∧
  length (threads three_calls_done) = length [fetch 1; fetch 2; fetch 3] ∧
  (ran (sh three_calls_done) = ran fresh_group ∨
   ∃ f, f ∈ [fetch 1; fetch 2; fetch 3] ∧
        ran (sh three_calls_done)
        = ran fresh_group ++ [("k", (f (world fresh_group)).1)]) ∧
  (∀ t r, t ∈ threads three_calls_done → pos t = Returned r →
     ∃ f, f ∈ [fetch 1; fetch 2; fetch 3] ∧
          ran (sh three_calls_done)
          = ran fresh_group ++ [("k", (f (world fresh_group)).1)] ∧
          r = (f (world fresh_group)).1) ∧
  (Forall returned (threads three_calls_done) →
   ∃ f, f ∈ [fetch 1; fetch 2; fetch 3] ∧
        ran (sh three_calls_done)
        = ran fresh_group ++ [("k", (f (world fresh_group)).1)] ∧
        world (sh three_calls_done) = (f (world fresh_group)).2 ∧
        Forall (λ t, pos t = Returned (f (world fresh_group)).1)
               (threads three_calls_done) ∧
        idle "k" (sh three_calls_done)) ∧
  ∃ sched' p', follow sched' three_calls_done = Some p' ∧
               Forall returned (threads p').
Proof.
  destruct (Do_coalesces "k" [fetch 1; fetch 2; fetch 3] fresh_group)
    as [Hex Hall]; [done|by split|].
  split; [exact Hex|].
  destruct (replay_follow overlapping three_calls three_calls_done)
    as [Hrun Htimely]; [by vm_compute|].
  apply (Hall overlapping three_calls_done Hrun Htimely).
Defined.

(** C6 on the zero [Group]: a call that fails, then one that succeeds. *)
Lemma Do_sequential_witness :
  ∃ s1 s2,
    Do "k" failing fresh_group = Some ((failing (world fresh_group)).1, s1) ∧
    world s1 = (failing (world fresh_group)).2 ∧
    ran s1 = ran fresh_group ++ [("k", (failing (world fresh_group)).1)] ∧
    idle "k" s1 ∧
    Do "k" (fetch 7) s1 = Some ((fetch 7 (world s1)).1, s2) ∧
    world s2 = (fetch 7 (world s1)).2 ∧
    ran s2 = ran fresh_group ++ [("k", (failing (world fresh_group)).1);
                                 ("k", (fetch 7 (world s1)).1)] ∧
    idle "k" s2.
Proof.
  apply (Do_sequential "k" failing (fetch 7) fresh_group). by split.
Defined.

(** The same two calls, evaluated: the first returns the error, the second
    the value, and the counter stands at two. *)
Example two_calls_in_turn :
  ('(r1, s1) ← Do "k" failing fresh_group;
   '(r2, s2) ← Do "k" (fetch 7) s1;
   Some (r1, r2, world s2, ran s2, m (g s2) ≫= (.!! "k")))
  = Some ((lru.Nil, Some "no such key"), (lru.Int 7, None), 2,
          [("k", (lru.Nil, Some "no such key")); ("k", (lru.Int 7, None))],
          None).
Proof. by vm_compute. Qed.

(** *** The further properties, on a scenario with two keys *)

(** Two calls for the key ["k"] and one for the key ["j"]. *)
Definition mixed : list (string * func (V := lru.iface) (E := option string)) :=
  [("k", fetch 1); ("k", fetch 2); ("j", failing)].

Definition mixed_calls : pool lru.iface (option string) nat :=
  starts mixed fresh_group.

(** Goroutine 0 goes up to the call of its function, goroutine 1 up to
    the wait. *)
Definition to_the_wait : list nat := replicate 7 0 ++ replicate 4 1.

Definition mixed_waiting : pool lru.iface (option string) nat :=
  default mixed_calls (follow to_the_wait mixed_calls).

(** Then goroutine 2 goes through [Do], 0 runs its function and
    finishes, and 1 picks the result up. *)
Definition to_the_end : list nat :=
  to_the_wait ++ replicate 13 2 ++ replicate 6 0 ++ replicate 2 1.

Definition mixed_done : pool lru.iface (option string) nat :=
  default mixed_calls (follow to_the_end mixed_calls).

Example mixed_calls_run :
  follow to_the_wait mixed_calls = Some mixed_waiting ∧
  pos <$> threads mixed_waiting = [CallFn 1%positive; HitWait 1%positive; Lock1] ∧
  follow to_the_end mixed_calls = Some mixed_done ∧
  pos <$> threads mixed_done
  = [Returned (lru.Int 1, None); Returned (lru.Int 1, None);
     Returned (lru.Nil, Some "no such key")] ∧
  ran (sh mixed_done)
  = [("j", (lru.Nil, Some "no such key")); ("k", (lru.Int 1, None))].
Proof. by vm_compute. Qed.

Lemma fresh_group_rest : rest fresh_group.
Proof. by split. Qed.

(** X10 at the moment when one call runs its function and one waits. *)
Lemma Do_mutual_exclusion_witness :
  (∀ i j ti tj,
     threads mixed_waiting !! i = Some ti →
     threads mixed_waiting !! j = Some tj →
     holds_mu ti = true → holds_mu tj = true → i = j) ∧
  (mu (g (sh mixed_waiting)) = true ↔
   ∃ i t, threads mixed_waiting !! i = Some t ∧ holds_mu t = true).
Proof.
  apply (Do_mutual_exclusion mixed fresh_group to_the_wait mixed_waiting).
  - reflexivity.
  - by vm_compute.
Defined.

(** X11 for the goroutine that waits. *)
Lemma Do_never_panics_witness :
  threads mixed_waiting !! 1
  = Some (Goroutine "k" (fetch 2) (HitWait 1%positive)) ∧
  advance (Goroutine "k" (fetch 2) (HitWait 1%positive)) (sh mixed_waiting)
  ≠ Panic.
Proof.
  split; [reflexivity|].
  apply (Do_never_panics mixed fresh_group to_the_wait mixed_waiting 1).
  - apply fresh_group_rest.
  - by vm_compute.
  - reflexivity.
Defined.


(** X13 at the moment when one call runs its function and one waits. *)
Lemma Do_always_finishes_witness :
  length to_the_wait ≤ 13 * length mixed ∧
  (Forall returned (threads mixed_waiting) ∨
   ∃ i p', pool_step i mixed_waiting = Some p') ∧
  ∃ sched' p', follow sched' mixed_waiting = Some p' ∧
               Forall returned (threads p').
Proof.
  apply (Do_always_finishes mixed fresh_group to_the_wait mixed_waiting).
  - apply fresh_group_rest.
  - by vm_compute.
Defined.

(** X14 for the key of the two calls, after all have returned. *)
Lemma Do_runs_fn_at_most_once_per_call_witness :
  runs_of "k" (ran (sh mixed_done))
  ≤ runs_of "k" (ran fresh_group)
    + length (filter (λ c, c.1 = "k") mixed).
Proof.
  apply (Do_runs_fn_at_most_once_per_call mixed fresh_group to_the_end
           mixed_done "k").
  by vm_compute.
Defined.

(** X15 for the goroutine that waits: it waits for goroutine 0. *)
Lemma Do_waits_for_its_own_key_witness :
  ∃ j tj,
    threads mixed_waiting !! j = Some tj ∧
    key tj = key (Goroutine "k" (fetch 2) (HitWait 1%positive)) ∧
    (pos tj = Unlock2 1%positive ∨ pos tj = CallFn 1%positive ∨
     pos tj = WgDone 1%positive) ∧
    m (g (sh mixed_waiting))
      ≫= (.!! key (Goroutine "k" (fetch 2) (HitWait 1%positive)))
    = Some 1%positive ∧
    (mu (g (sh mixed_waiting)) = false →
     ∃ p', pool_step j mixed_waiting = Some p').
Proof.
  apply (Do_waits_for_its_own_key mixed fresh_group to_the_wait
           mixed_waiting 1 (Goroutine "k" (fetch 2) (HitWait 1%positive))
           1%positive).
  - apply fresh_group_rest.
  - by vm_compute.
  - reflexivity.
  - reflexivity.
  - reflexivity.
Defined.

End singleflight.
